(** * LLMFS, "1. Tokenizer/tokenizer.py": the two word-level tokenizers

    A shallow embedding of the regex pre-tokenizer, of the vocabulary
    construction and of [SimpleTokenizerV1] / [SimpleTokenizerV2], with the
    properties of the specification settled against it.

    Conventions.
    - A Python [str] is a [string]; each [ascii] stands for one code point
      below 256 (not for a byte of an encoding).
    - A Python [dict] is an association list in insertion order, written to
      with [dict_set] (an existing key keeps its place and takes the new
      value) and read with [dict_get] ([None] where Python raises KeyError).
    - An ID is a [nat]: the IDs of a vocabulary are positions in a list,
      and any other Python integer is missing from [int_to_str].
    - A call that may raise returns a [result]. *)

From Stdlib Require Import Bool Arith Lia List Ascii String.
From Stdlib Require Import NArith Sorted Permutation.
Import ListNotations.

Local Open Scope string_scope.
Local Open Scope list_scope.

(* ================================================================== *)
(** * Characters *)

(** [Py_UNICODE_ISSPACE] below code point 256: it decides both the regex
    class [\s] (of a [str] pattern) and what [str.strip()] removes. *)
Definition isspace (c : ascii) : bool :=
  let n := N_of_ascii c in
  (((9 <=? n) && (n <=? 13)) || ((28 <=? n) && (n <=? 32))
   || (n =? 133) || (n =? 160))%N.

(** The double quote, code point 34. *)
Definition dquote : ascii := Eval cbv in ascii_of_nat 34.

(** The character class of the splitting pattern: comma, period, colon,
    semicolon, question mark, underscore, exclamation mark, double quote,
    both parentheses and the apostrophe. *)
Definition split_class : list ascii :=
  [","; "."; ":"; ";"; "?"; "_"; "!"; dquote; "("; ")"; "'"]%char.

(** The class of [SimpleTokenizerV1.decode]: the splitting class without
    colon, semicolon and underscore. *)
Definition sub_class_v1 : list ascii :=
  [","; "."; "?"; "!"; dquote; "("; ")"; "'"]%char.

(** The class of [SimpleTokenizerV2.decode]: the splitting class without
    the underscore. *)
Definition sub_class_v2 : list ascii :=
  [","; "."; ":"; ";"; "?"; "!"; dquote; "("; ")"; "'"]%char.

Definition in_class (cls : list ascii) (c : ascii) : bool :=
  existsb (Ascii.eqb c) cls.

Definition is_dash (c : ascii) : bool := Ascii.eqb c "-".

Definition starts_with_dash (s : string) : bool :=
  match s with
  | String c _ => is_dash c
  | EmptyString => false
  end.

(* ================================================================== *)
(** * Strings *)

Definition nonempty (s : string) : bool :=
  match s with
  | EmptyString => false
  | String _ _ => true
  end.

Fixpoint lstrip (s : string) : string :=
  match s with
  | EmptyString => EmptyString
  | String c r => if isspace c then lstrip r else s
  end.

Fixpoint rstrip (s : string) : string :=
  match s with
  | EmptyString => EmptyString
  | String c r =>
      match rstrip r with
      | EmptyString => if isspace c then EmptyString else String c EmptyString
      | r' => String c r'
      end
  end.

(** [str.strip()] with no argument. *)
Definition strip (s : string) : string := rstrip (lstrip s).

(** [str.join]. *)
Definition join (sep : string) (ls : list string) : string :=
  String.concat sep ls.

(* ================================================================== *)
(** * The regex calls *)

(** Put [c] in front of the first piece of a split. *)
Definition cons_first (c : ascii) (l : list string) : list string :=
  match l with
  | p :: tl => String c p :: tl
  | [] => [String c EmptyString]
  end.

(** [re.split] with the pattern (class | two hyphens | whitespace), the
    class being [split_class].  The pattern has one
    capturing group around all of it, so the result alternates the text
    between two matches (possibly empty) and the matched separator, and it
    ends with the text after the last match.  At a position the
    alternatives are tried in order: one character of the class, then two
    hyphens, then one whitespace character; where none matches, the
    character joins the current piece. *)
Fixpoint re_split (text : string) : list string :=
  match text with
  | EmptyString => [EmptyString]
  | String c rest =>
      if in_class split_class c then
        EmptyString :: String c EmptyString :: re_split rest
      else
        match rest with
        | String c' rest' =>
            if is_dash c && is_dash c' then
              EmptyString :: String c (String c' EmptyString) :: re_split rest'
            else if isspace c then
              EmptyString :: String c EmptyString :: re_split rest
            else cons_first c (re_split rest)
        | EmptyString =>
            if isspace c then
              EmptyString :: String c EmptyString :: re_split rest
            else cons_first c (re_split rest)
        end
  end.

(** Does the whitespace run at the head of [s] (possibly empty) end at a
    character of [cls]? *)
Fixpoint before_class (cls : list ascii) (s : string) : bool :=
  match s with
  | EmptyString => false
  | String c r => if isspace c then before_class cls r else in_class cls c
  end.

(** [re.sub] of the pattern (whitespace run, then one captured character
    of the class [cls]) by the captured character: a match is a maximal run of
    whitespace followed by a character of the class (a shorter run is
    followed by whitespace, never by the class), and it is replaced by that
    character.  So a whitespace character is dropped exactly when the run
    it belongs to ends at a character of the class; everything else is
    copied. *)
Fixpoint re_sub (cls : list ascii) (text : string) : string :=
  match text with
  | EmptyString => EmptyString
  | String c r =>
      if isspace c && before_class cls r then re_sub cls r
      else String c (re_sub cls r)
  end.

(** The two lines every tokenizer starts with:
    [preprocessed = re.split(..., text)] and
    [preprocessed = [item.strip() for item in preprocessed if item.strip()]]. *)
Definition preprocess (text : string) : list string :=
  map strip (filter (fun item => nonempty (strip item)) (re_split text)).

(* ================================================================== *)
(** * Python containers *)

Section Dict.
Context {K V : Type} (eqb : K -> K -> bool).

Definition dict := list (K * V).

(** [d[k]], [None] for KeyError. *)
Fixpoint dict_get (d : dict) (k : K) : option V :=
  match d with
  | [] => None
  | (k', v) :: d' => if eqb k k' then Some v else dict_get d' k
  end.

(** [d[k] = v]. *)
Fixpoint dict_set (d : dict) (k : K) (v : V) : dict :=
  match d with
  | [] => [(k, v)]
  | (k', v') :: d' =>
      if eqb k k' then (k', v) :: d' else (k', v') :: dict_set d' k v
  end.

(** [k in d]. *)
Definition dict_mem (d : dict) (k : K) : bool :=
  match dict_get d k with
  | Some _ => true
  | None => false
  end.

(** [{k: v for k, v in kvs}]. *)
Definition dict_of (kvs : list (K * V)) : dict :=
  fold_left (fun d kv => dict_set d (fst kv) (snd kv)) kvs [].

Definition keys (d : dict) : list K := map fst d.

(** The value bound last to [k] in a list of bindings. *)
Definition lookup_last (k : K) (kvs : list (K * V)) (start : option V) :=
  fold_left (fun acc kv => if eqb k (fst kv) then Some (snd kv) else acc)
            kvs start.

End Dict.

(** [enumerate(l)], counting from [i]. *)
Fixpoint enumerate_from {A : Type} (i : nat) (l : list A) : list (nat * A) :=
  match l with
  | [] => []
  | x :: l' => (i, x) :: enumerate_from (S i) l'
  end.

Definition enumerate {A : Type} (l : list A) : list (nat * A) :=
  enumerate_from 0 l.

(** One step of [sorted]: [x] goes after every element that is not greater
    than it (the comparison used is [<], as in [list.sort]). *)
Fixpoint insert_sorted (x : string) (l : list string) : list string :=
  match l with
  | [] => [x]
  | y :: l' => if (x <? y)%string then x :: l else y :: insert_sorted x l'
  end.

(** [sorted(l)] on strings: a stable sort by code points. *)
Definition sorted (l : list string) : list string :=
  fold_left (fun acc x => insert_sorted x acc) l [].

(** [l] lists the elements of [set(src)] in some iteration order.  The order
    in which a Python set of strings is iterated is not fixed by the
    language (string hashes change from one process to the next). *)
Definition set_iteration (src l : list string) : Prop :=
  NoDup l /\ forall x, In x l <-> In x src.

(** One iteration order of [set(src)]: by first occurrence. *)
Definition set_of (src : list string) : list string :=
  nodup string_dec src.

(* ================================================================== *)
(** * Failures *)

Inductive exn : Type :=
| KeyError_str (k : string)   (* a symbol missing from [str_to_int] *)
| KeyError_int (k : nat).     (* an ID missing from [int_to_str] *)

Inductive result (A : Type) : Type :=
| Ok (a : A)
| Raise (e : exn).
Arguments Ok {A} a.
Arguments Raise {A} e.

Definition bind {A B : Type} (r : result A) (f : A -> result B) : result B :=
  match r with
  | Ok a => f a
  | Raise e => Raise e
  end.

Notation "x <- r ;; k" := (bind r (fun x => k))
  (at level 61, r at next level, right associativity).

(** A list comprehension whose element expression may raise: the first
    failure, in list order, is the one that surfaces. *)
Fixpoint mapM {A B : Type} (f : A -> result B) (l : list A) : result (list B) :=
  match l with
  | [] => Ok []
  | x :: l' => y <- f x ;; ys <- mapM f l' ;; Ok (y :: ys)
  end.

Definition is_ok {A : Type} (r : result A) : bool :=
  match r with
  | Ok _ => true
  | Raise _ => false
  end.

(* ================================================================== *)
(** * Vocabularies and tokenizers *)

Definition endoftext : string := "<|endoftext|>".
Definition unk : string := "<|unk|>".

(** [{token: integer for integer, token in enumerate(tokens)}]. *)
Definition vocab_of (tokens : list string) : dict (K := string) (V := nat) :=
  dict_of String.eqb (map (fun it => (snd it, fst it)) (enumerate tokens)).

(** [all_words = sorted(set(preprocessed))], for the set iterated as [iter]. *)
Definition all_words_from (iter : list string) : list string := sorted iter.

(** [all_tokens = sorted(list(set(preprocessed)))] extended with the two
    special tokens. *)
Definition all_tokens_from (iter : list string) : list string :=
  sorted iter ++ [endoftext; unk].

Definition all_words (raw_text : string) : list string :=
  all_words_from (set_of (preprocess raw_text)).

Definition all_tokens (raw_text : string) : list string :=
  all_tokens_from (set_of (preprocess raw_text)).

(** The vocabulary handed to [SimpleTokenizerV1]. *)
Definition vocab_v1 (raw_text : string) := vocab_of (all_words raw_text).

(** The vocabulary handed to [SimpleTokenizerV2]. *)
Definition vocab_v2 (raw_text : string) := vocab_of (all_tokens raw_text).

Record tokenizer : Type := {
  str_to_int : dict (K := string) (V := nat);
  int_to_str : dict (K := nat) (V := string)
}.

(** [__init__], the same in both classes:
    [int_to_str = {i: s for s, i in vocab.items()}]. *)
Definition init (vocab : dict (K := string) (V := nat)) : tokenizer :=
  {| str_to_int := vocab;
     int_to_str := dict_of Nat.eqb (map (fun si => (snd si, fst si)) vocab) |}.

Definition lookup_str (t : tokenizer) (s : string) : result nat :=
  match dict_get String.eqb (str_to_int t) s with
  | Some i => Ok i
  | None => Raise (KeyError_str s)
  end.

Definition lookup_int (t : tokenizer) (i : nat) : result string :=
  match dict_get Nat.eqb (int_to_str t) i with
  | Some s => Ok s
  | None => Raise (KeyError_int i)
  end.

Module SimpleTokenizerV1.
Definition encode (self : tokenizer) (text : string) : result (list nat) :=
  let preprocessed := preprocess text in
  mapM (lookup_str self) preprocessed.

Definition decode (self : tokenizer) (ids : list nat) : result string :=
  strs <- mapM (lookup_int self) ids ;;
  let text := join " " strs in
  Ok (re_sub sub_class_v1 text).
End SimpleTokenizerV1.

Module SimpleTokenizerV2.
Definition encode (self : tokenizer) (text : string) : result (list nat) :=
  let preprocessed := preprocess text in
  let preprocessed :=
    map (fun item =>
           if dict_mem String.eqb (str_to_int self) item then item else unk)
        preprocessed in
  mapM (lookup_str self) preprocessed.

Definition decode (self : tokenizer) (ids : list nat) : result string :=
  strs <- mapM (lookup_int self) ids ;;
  let text := join " " strs in
  Ok (re_sub sub_class_v2 text).
End SimpleTokenizerV2.

Definition text1 : string := "Hello, do you like tea?".
Definition text2 : string := "In the sunlit terraces of the palace.".

(* ================================================================== *)
(** * Shapes of characters, pieces and symbols *)

(** What a character is to the splitting pattern. *)
Definition word_char (c : ascii) : bool :=
  negb (in_class split_class c) && negb (isspace c).

Fixpoint no_space (s : string) : bool :=
  match s with
  | EmptyString => true
  | String c r => negb (isspace c) && no_space r
  end.

(** A stretch of text in which the splitting pattern matches nowhere. *)
Fixpoint plainb (w : string) : bool :=
  match w with
  | EmptyString => true
  | String c r =>
      word_char c && negb (is_dash c && starts_with_dash r) && plainb r
  end.

Definition is_class_char (t : string) : bool :=
  match t with
  | String c EmptyString => in_class split_class c
  | _ => false
  end.

(** What the pre-tokenizer emits: a non-empty plain word, one character of
    the class, or the double hyphen. *)
Definition symbolb (t : string) : bool :=
  (nonempty t && plainb t) || is_class_char t || (t =? "--")%string.

Definition flush (p : string) : list string :=
  if nonempty p then [p] else [].

(** The comprehension that follows the split. *)
Definition post (l : list string) : list string :=
  map strip (filter (fun item => nonempty (strip item)) l).

(** The text [r] is empty or starts with a separator of one character. *)
Definition sep_start (r : string) : bool :=
  match r with
  | EmptyString => true
  | String c _ => in_class split_class c || isspace c
  end.

(* ================================================================== *)
(** * The order of [sorted] *)

Definition sle (a b : string) : Prop := (a <=? b)%string = true.
Definition slt (a b : string) : Prop := (a <? b)%string = true.

(* ================================================================== *)
(** * Functions of the statements *)

Definition swap_it (it : nat * string) : string * nat := (snd it, fst it).

(** The ID a symbol is encoded to by [SimpleTokenizerV2]. *)
Definition id_v2 (vocab : dict (K := string) (V := nat)) (s : string) : nat :=
  match dict_get String.eqb vocab s with
  | Some i => i
  | None =>
      match dict_get String.eqb vocab unk with
      | Some i => i
      | None => 0
      end
  end.

Definition starts_with_class (cls : list ascii) (s : string) : bool :=
  match s with
  | String c _ => in_class cls c
  | EmptyString => false
  end.

(** The symbols in a row, one space in front of every symbol but the first,
    and no space in front of a symbol that starts with a character of
    [cls]. *)
Fixpoint layout (cls : list ascii) (strs : list string) : string :=
  match strs with
  | [] => EmptyString
  | s :: rest =>
      match rest with
      | [] => s
      | s' :: _ =>
          if starts_with_class cls s' then (s ++ layout cls rest)%string
          else (s ++ String " " (layout cls rest))%string
      end
  end.

(** Concatenation with no separator. *)
Definition concat_all (strs : list string) : string :=
  fold_right String.append EmptyString strs.

(** The text without its whitespace characters. *)
Fixpoint remove_spaces (s : string) : string :=
  match s with
  | EmptyString => EmptyString
  | String c r => if isspace c then remove_spaces r else String c (remove_spaces r)
  end.

Definition chars (s : string) : list ascii := list_ascii_of_string s.

(* ================================================================== *)
(** * The rest of the script *)

(** The class of the first splitting pattern of the script: comma and
    period. *)
Definition basic_class : list ascii := [","; "."]%char.

(** [re.split] with the first pattern of the script (class | whitespace),
    the class being [basic_class]: the same scan as [re_split], without the
    underscore, the other punctuation and the double hyphen. *)
Fixpoint re_split_basic (text : string) : list string :=
  match text with
  | EmptyString => [EmptyString]
  | String c rest =>
      if in_class basic_class c then
        EmptyString :: String c EmptyString :: re_split_basic rest
      else if isspace c then
        EmptyString :: String c EmptyString :: re_split_basic rest
      else cons_first c (re_split_basic rest)
  end.

(** [result = [item for item in result if item.strip()]]: the items are
    filtered, not stripped. *)
Definition result_of (text : string) : list string :=
  filter (fun item => nonempty (strip item)) (re_split_basic text).

(** [vocab_size = len(all_words)]. *)
Definition vocab_size (raw_text : string) : nat :=
  List.length (all_words raw_text).

(** [" <|endoftext|> ".join((text1, text2))]. *)
Definition joined (text1 text2 : string) : string :=
  join " <|endoftext|> " [text1; text2].

(* ================================================================== *)
(** * Further functions of the statements *)

(** One whitespace character. *)
Definition is_space_char (t : string) : bool :=
  match t with
  | String c EmptyString => isspace c
  | _ => false
  end.

(** What the splitting pattern can match: one character of the class, the
    double hyphen, or one whitespace character. *)
Definition separatorb (t : string) : bool :=
  is_class_char t || (t =? "--")%string || is_space_char t.

(** A piece, then a separator and a piece any number of times. *)
Fixpoint alternating (l : list string) : bool :=
  match l with
  | [] => false
  | p :: tl =>
      match tl with
      | [] => plainb p
      | s :: tl' => plainb p && separatorb s && alternating tl'
      end
  end.

(** The text holds no character of the splitting class but comma and
    period, and no double hyphen. *)
Fixpoint basic_text (text : string) : bool :=
  match text with
  | EmptyString => true
  | String c r =>
      (in_class basic_class c || negb (in_class split_class c))
      && negb (is_dash c && starts_with_dash r)
      && basic_text r
  end.

(** Somewhere in [s] a whitespace character stands right in front of a
    character of [cls]. *)
Fixpoint space_before_class (cls : list ascii) (s : string) : bool :=
  match s with
  | EmptyString => false
  | String c r =>
      (isspace c && starts_with_class cls r) || space_before_class cls r
  end.

(** What [SimpleTokenizerV2.encode] looks up for a symbol. *)
Definition known_or_unk (vocab : dict (K := string) (V := nat))
    (item : string) : string :=
  if dict_mem String.eqb vocab item then item else unk.

(* ================================================================== *)
(** * The byte-pair trainer of the specification *)

Module BPE.

(** Modelled from the spec: the trainer of section 4.3 is not in the
    repository (the script only loads a pretrained encoding from an
    external library).  A pair of adjacent symbols, left then right. *)
Definition pair : Type := (string * string)%type.

(** Modelled from the spec: equality of two pairs of symbols. *)
Definition pair_eqb (p q : pair) : bool :=
  ((fst p =? fst q)%string && (snd p =? snd q)%string)%bool.

(** Modelled from the spec: step 1, the number of places of one sequence
    at which the two symbols of [p] are adjacent. *)
Fixpoint count_pair (p : pair) (seq : list string) : nat :=
  match seq with
  | [] => 0
  | x :: rest =>
      match rest with
      | y :: _ => if pair_eqb (x, y) p then 1 else 0
      | [] => 0
      end + count_pair p rest
  end.

(** Modelled from the spec: step 1, the frequency of a pair across all
    sequences. *)
Definition frequency (p : pair) (corpus : list (list string)) : nat :=
  list_sum (map (count_pair p) corpus).

(** Modelled from the spec: every adjacent (current, next) pair of a
    sequence, in order. *)
Fixpoint adjacent_pairs (seq : list string) : list pair :=
  match seq with
  | [] => []
  | x :: rest =>
      match rest with
      | y :: _ => (x, y) :: adjacent_pairs rest
      | [] => []
      end
  end.

(** Modelled from the spec: the adjacent pairs of all sequences. *)
Definition candidates (corpus : list (list string)) : list pair :=
  List.concat (map adjacent_pairs corpus).

(** Modelled from the spec: the merged symbol of a rule, the
    concatenation of its two symbols. *)
Definition merged (p : pair) : string := (fst p ++ snd p)%string.

(** Modelled from the spec: step 2, [p] wins over [q] when it is more
    frequent or, at equal frequency, when its concatenation comes first in
    lexicographic order. *)
Definition better (corpus : list (list string)) (p q : pair) : bool :=
  (frequency q corpus <? frequency p corpus)%nat
  || ((frequency p corpus =? frequency q corpus)%nat
      && (merged p <? merged q)%string).

(** Modelled from the spec: step 2, the winner among the candidates, the
    earlier one where neither wins over the other. *)
Definition best (corpus : list (list string)) (cands : list pair)
  : option pair :=
  fold_left (fun acc p =>
               match acc with
               | None => Some p
               | Some q => if better corpus p q then Some p else Some q
               end) cands None.

(** Modelled from the spec: step 2 with the loop condition on the
    frequencies, the pair to merge next, if one occurs at least twice. *)
Definition select_pair (corpus : list (list string)) : option pair :=
  match best corpus (candidates corpus) with
  | Some p => if (2 <=? frequency p corpus)%nat then Some p else None
  | None => None
  end.

(** Modelled from the spec: step 4, every occurrence of the pair replaced
    by the merged symbol, without overlap, from left to right. *)
Fixpoint merge_seq (p : pair) (seq : list string) : list string :=
  match seq with
  | [] => []
  | x :: rest =>
      match rest with
      | y :: rest' =>
          if pair_eqb (x, y) p then merged p :: merge_seq p rest'
          else x :: merge_seq p rest
      | [] => [x]
      end
  end.

(** Modelled from the spec: [intern] of the symbol table, a new ID only
    for an unseen symbol. *)
Definition intern (s : string) (vocab : list string) : list string :=
  if existsb (String.eqb s) vocab then vocab else vocab ++ [s].

(** Modelled from the spec: what an iteration of the trainer works on. *)
Record state : Type := {
  seqs : list (list string);
  vocab : list string;          (* the symbol of each ID, in ID order *)
  merges : list pair            (* the merge rules, in rank order *)
}.

(** Modelled from the spec: the number of symbols of the corpus. *)
Definition total_symbols (corpus : list (list string)) : nat :=
  list_sum (map (@List.length string) corpus).

(** Modelled from the spec: the loop condition, "until the target size is
    reached or no pair occurs more than once".  [Some p] is the pair of
    the next iteration, [None] ends the loop. *)
Definition continue (target : nat) (st : state) : option pair :=
  if (target <=? List.length (vocab st))%nat then None
  else select_pair (seqs st).

(** Modelled from the spec: steps 3 and 4 of one iteration. *)
Definition step (p : pair) (st : state) : state :=
  {| seqs := map (merge_seq p) (seqs st);
     vocab := intern (merged p) (vocab st);
     merges := merges st ++ [p] |}.

(** Modelled from the spec: the merge loop.  [fuel] bounds the number of
    iterations; [None] stands for a loop cut short by it. *)
Fixpoint loop (fuel : nat) (target : nat) (st : state) : option state :=
  match continue target st with
  | None => Some st
  | Some p =>
      match fuel with
      | 0 => None
      | S fuel' => loop fuel' target (step p st)
      end
  end.

(** Modelled from the spec: the vocabulary starts with every distinct
    atomic symbol of the corpus, in sorted order. *)
Definition initial (corpus : list (list string)) : state :=
  {| seqs := corpus;
     vocab := sorted (nodup string_dec (List.concat corpus));
     merges := [] |}.

(** Modelled from the spec: what [train] ends with; [EmptyCorpus] is the
    failure of the specification. *)
Inductive outcome : Type :=
| Trained (vocabulary : list string) (rules : list pair)
| EmptyCorpus
| LoopCutShort.

(** Modelled from the spec: [train(corpus, target_vocab_size,
    special_tokens)], the special tokens appended after the loop. *)
Definition train (corpus : list (list string)) (target : nat)
    (special_tokens : list string) : outcome :=
  if (total_symbols corpus =? 0)%nat then EmptyCorpus
  else
    match loop (total_symbols corpus) target (initial corpus) with
    | Some st => Trained (vocab st ++ special_tokens) (merges st)
    | None => LoopCutShort
    end.

End BPE.

(* ================================================================== *)
(** * Runs of the definitions *)

Example split_hello :
  preprocess "Hello, world. Is this-- a test?"
  = ["Hello"; ","; "world"; "."; "Is"; "this"; "--"; "a"; "test"; "?"].
Proof. reflexivity. Qed.

(** The opening of the corpus, with the thirty symbols the script prints
    for it. *)
Example preprocess_corpus_opening :
  preprocess "I HAD always thought Jack Gisburn rather a cheap genius--though a good fellow enough--so it was no great surprise to me to hear that, in"
  = ["I"; "HAD"; "always"; "thought"; "Jack"; "Gisburn"; "rather"; "a";
     "cheap"; "genius"; "--"; "though"; "a"; "good"; "fellow"; "enough";
     "--"; "so"; "it"; "was"; "no"; "great"; "surprise"; "to"; "me"; "to";
     "hear"; "that"; ","; "in"].
Proof. reflexivity. Qed.

Example re_split_raw :
  re_split "a, b" = ["a"; ","; EmptyString; " "; "b"].
Proof. reflexivity. Qed.

Example re_sub_example :
  re_sub sub_class_v2 "Hello , do  you ( know ) ?  yes" = "Hello, do  you( know)?  yes".
Proof. reflexivity. Qed.

(** The demonstration of the script, on a corpus that knows every symbol
    of the two sentences but the first word of one and the last word of the
    other. *)
Example demo_v2 :
  let tok := init (vocab_v2 "do you like tea? In the sunlit terraces of the , .") in
  r <- SimpleTokenizerV2.encode tok (join " <|endoftext|> " [text1; text2]) ;;
  SimpleTokenizerV2.decode tok r
  = Ok "<|unk|>, do you like tea? <|endoftext|> In the sunlit terraces of the <|unk|>.".
Proof. reflexivity. Qed.

(** The scenario of the specification for the trainer. *)
Example bpe_low_lower_lowest :
  BPE.train [["l"; "o"; "w"]; ["l"; "o"; "w"; "e"; "r"];
             ["l"; "o"; "w"; "e"; "s"; "t"]] 100 ["<|endoftext|>"]
  = BPE.Trained
      ["e"; "l"; "o"; "r"; "s"; "t"; "w"; "lo"; "low"; "lowe"; "<|endoftext|>"]
      [("l", "o"); ("lo", "w"); ("low", "e")].
Proof. reflexivity. Qed.

(* ================================================================== *)
(** * Facts on characters *)

Lemma class_not_space c :
  in_class split_class c = true -> isspace c = false.
Proof.
  destruct c as [[] [] [] [] [] [] [] []]; vm_compute; congruence.
Qed.

Lemma class_not_dash c :
  in_class split_class c = true -> is_dash c = false.
Proof.
  destruct c as [[] [] [] [] [] [] [] []]; vm_compute; congruence.
Qed.

Lemma dash_not_space c : is_dash c = true -> isspace c = false.
Proof.
  destruct c as [[] [] [] [] [] [] [] []]; vm_compute; congruence.
Qed.

Lemma is_dash_eq c : is_dash c = true -> c = "-"%char.
Proof. unfold is_dash. apply Ascii.eqb_eq. Qed.

Lemma sub_class_v1_split c :
  in_class sub_class_v1 c = true -> in_class split_class c = true.
Proof.
  destruct c as [[] [] [] [] [] [] [] []]; vm_compute; congruence.
Qed.

Lemma sub_class_v2_split c :
  in_class sub_class_v2 c = true -> in_class split_class c = true.
Proof.
  destruct c as [[] [] [] [] [] [] [] []]; vm_compute; congruence.
Qed.

(* ================================================================== *)
(** * The equations of [re_split] *)

Lemma re_split_class c r :
  in_class split_class c = true ->
  re_split (String c r) = EmptyString :: String c EmptyString :: re_split r.
Proof. intros H. cbn [re_split]. now rewrite H. Qed.

Lemma re_split_dashes r :
  re_split (String "-" (String "-" r)) = EmptyString :: "--" :: re_split r.
Proof. reflexivity. Qed.

Lemma re_split_space c r :
  isspace c = true ->
  re_split (String c r) = EmptyString :: String c EmptyString :: re_split r.
Proof.
  intros H. cbn [re_split].
  destruct (in_class split_class c) eqn:Hc.
  - apply class_not_space in Hc. congruence.
  - assert (Hd : is_dash c = false).
    { destruct (is_dash c) eqn:Hd; [apply dash_not_space in Hd; congruence | easy]. }
    rewrite Hd, H. now destruct r.
Qed.

Lemma re_split_word c r :
  word_char c = true ->
  is_dash c && starts_with_dash r = false ->
  re_split (String c r) = cons_first c (re_split r).
Proof.
  unfold word_char. intros H Hd.
  apply andb_true_iff in H as [H1 H2].
  apply negb_true_iff in H1, H2.
  cbn [re_split]. rewrite H1, H2.
  destruct r as [|c' r']; [reflexivity|].
  cbn [starts_with_dash] in Hd. now rewrite Hd.
Qed.

Lemma re_split_nonnil text : re_split text <> [].
Proof.
  destruct text as [|c r]; [easy|]. cbn [re_split].
  destruct (in_class split_class c); [easy|].
  destruct r as [|c' r'].
  - destruct (isspace c); [easy|]. cbn. easy.
  - destruct (is_dash c && is_dash c'); [easy|].
    destruct (isspace c); [easy|].
    destruct (re_split (String c' r')); cbn; easy.
Qed.

(** The case analysis of the splitter, as an induction principle. *)
Lemma re_split_ind (P : string -> list string -> Prop) :
  P EmptyString [EmptyString] ->
  (forall c r, in_class split_class c = true ->
     P r (re_split r) ->
     P (String c r) (EmptyString :: String c EmptyString :: re_split r)) ->
  (forall r, P r (re_split r) ->
     P (String "-" (String "-" r)) (EmptyString :: "--" :: re_split r)) ->
  (forall c r, isspace c = true ->
     P r (re_split r) ->
     P (String c r) (EmptyString :: String c EmptyString :: re_split r)) ->
  (forall c r, word_char c = true ->
     is_dash c && starts_with_dash r = false ->
     P r (re_split r) ->
     P (String c r) (cons_first c (re_split r))) ->
  forall text, P text (re_split text).
Proof.
  intros Hnil Hcls Hdd Hsp Hw text.
  remember (String.length text) as n eqn:Hn.
  revert text Hn.
  induction n as [n IH] using lt_wf_ind.
  intros text Hn. destruct text as [|c r]; [exact Hnil|].
  cbn [String.length] in Hn.
  assert (IHr : P r (re_split r)) by (apply (IH (String.length r)); lia).
  destruct (in_class split_class c) eqn:Hc.
  { rewrite re_split_class by assumption. now apply Hcls. }
  destruct (isspace c) eqn:Hs.
  { rewrite re_split_space by assumption. now apply Hsp. }
  destruct (is_dash c && starts_with_dash r) eqn:Hd.
  - apply andb_true_iff in Hd as [Hd1 Hd2].
    destruct r as [|c' r']; [discriminate|].
    cbn [starts_with_dash] in Hd2.
    apply is_dash_eq in Hd1, Hd2. subst c c'.
    rewrite re_split_dashes. apply Hdd.
    apply (IH (String.length r')); cbn [String.length] in Hn; lia.
  - assert (Hwc : word_char c = true) by (unfold word_char; now rewrite Hc, Hs).
    rewrite re_split_word by assumption. now apply Hw.
Qed.

(* ================================================================== *)
(** * The equations of [re_sub] *)

Lemma lstrip_head_not_space s c r :
  lstrip s = String c r -> isspace c = false.
Proof.
  induction s as [|x s IH]; [discriminate|]. cbn [lstrip].
  destruct (isspace x) eqn:E; [exact IH|]. intros H.
  inversion H; subst. exact E.
Qed.

(** The look-ahead of [re_sub]: past the whitespace, the text starts with a
    character of the class. *)
Lemma before_class_lstrip cls s :
  before_class cls s
  = match lstrip s with
    | String c _ => in_class cls c
    | EmptyString => false
    end.
Proof.
  induction s as [|x s IH]; [reflexivity|]. cbn [before_class lstrip].
  now destruct (isspace x).
Qed.

Lemma re_sub_cons cls c r :
  re_sub cls (String c r)
  = if isspace c && before_class cls r then re_sub cls r
    else String c (re_sub cls r).
Proof. reflexivity. Qed.

(** Where the pattern matches, the match (the whitespace run and the
    character [p] of the class) is replaced by [p] and the substitution
    goes on after the match. *)
Lemma re_sub_match cls c r p rest :
  isspace c = true -> lstrip r = String p rest -> in_class cls p = true ->
  re_sub cls (String c r) = String p (re_sub cls rest).
Proof.
  revert c. induction r as [|x r IH]; intros c Hc Hl Hp; [discriminate|].
  rewrite re_sub_cons, Hc, before_class_lstrip, Hl, Hp. cbn [andb].
  cbn [lstrip] in Hl. destruct (isspace x) eqn:Hx.
  - now apply IH.
  - inversion Hl; subst. now rewrite re_sub_cons, Hx.
Qed.

(** Where it does not, the character is copied. *)
Lemma re_sub_no_match cls c r :
  isspace c = false \/ before_class cls r = false ->
  re_sub cls (String c r) = String c (re_sub cls r).
Proof.
  intros H. rewrite re_sub_cons.
  destruct H as [H|H]; rewrite H; [reflexivity | now rewrite andb_false_r].
Qed.

(* ================================================================== *)
(** * Shape of the pieces and symbols *)

Lemma post_cons x l :
  post (x :: l) = flush (strip x) ++ post l.
Proof.
  unfold post, flush. cbn [filter].
  destruct (nonempty (strip x)); reflexivity.
Qed.

Lemma plainb_no_space w : plainb w = true -> no_space w = true.
Proof.
  induction w as [|c r IH]; [easy|]. cbn [plainb no_space]. intros H.
  apply andb_true_iff in H as [H Hr].
  apply andb_true_iff in H as [H _].
  unfold word_char in H. apply andb_true_iff in H as [_ H].
  rewrite H. now apply IH.
Qed.

Lemma rstrip_no_space s : no_space s = true -> rstrip s = s.
Proof.
  induction s as [|c r IH]; [easy|]. cbn [no_space rstrip]. intros H.
  apply andb_true_iff in H as [Hc Hr]. rewrite (IH Hr).
  apply negb_true_iff in Hc. rewrite Hc. now destruct r.
Qed.

Lemma lstrip_no_space s : no_space s = true -> lstrip s = s.
Proof.
  destruct s as [|c r]; [easy|]. cbn [no_space lstrip]. intros H.
  apply andb_true_iff in H as [Hc _].
  apply negb_true_iff in Hc. now rewrite Hc.
Qed.

Lemma strip_no_space s : no_space s = true -> strip s = s.
Proof.
  intros H. unfold strip. rewrite lstrip_no_space by assumption.
  now apply rstrip_no_space.
Qed.

Lemma strip_space_char c :
  isspace c = true -> strip (String c EmptyString) = EmptyString.
Proof. intros H. unfold strip. cbn. now rewrite H. Qed.

Lemma symbolb_no_space t : symbolb t = true -> no_space t = true.
Proof.
  unfold symbolb. intros H.
  apply orb_true_iff in H as [H|H]; [apply orb_true_iff in H as [H|H]|].
  - apply andb_true_iff in H as [_ H]. now apply plainb_no_space.
  - destruct t as [|c [|]]; try discriminate. cbn in H |- *.
    apply class_not_space in H. now rewrite H.
  - apply String.eqb_eq in H. now subst.
Qed.

Lemma symbolb_nonempty t : symbolb t = true -> nonempty t = true.
Proof.
  unfold symbolb. intros H.
  apply orb_true_iff in H as [H|H]; [apply orb_true_iff in H as [H|H]|].
  - now apply andb_true_iff in H as [H _].
  - destruct t; [discriminate|reflexivity].
  - apply String.eqb_eq in H. now subst.
Qed.

Lemma post_flush_plain p l :
  plainb p = true -> post (p :: l) = flush p ++ post l.
Proof.
  intros H. rewrite post_cons, strip_no_space; [reflexivity|].
  now apply plainb_no_space.
Qed.

Lemma preprocess_post text : preprocess text = post (re_split text).
Proof. reflexivity. Qed.

Lemma preprocess_nil : preprocess EmptyString = [].
Proof. reflexivity. Qed.

Lemma preprocess_class c r :
  in_class split_class c = true ->
  preprocess (String c r) = String c EmptyString :: preprocess r.
Proof.
  intros H. rewrite !preprocess_post, re_split_class by assumption.
  rewrite (post_cons EmptyString), post_cons.
  rewrite (strip_no_space (String c EmptyString)); [reflexivity|].
  cbn. now rewrite (class_not_space _ H).
Qed.

Lemma preprocess_dashes r :
  preprocess (String "-" (String "-" r)) = "--" :: preprocess r.
Proof.
  rewrite !preprocess_post, re_split_dashes. now rewrite !post_cons.
Qed.

Lemma preprocess_space c r :
  isspace c = true -> preprocess (String c r) = preprocess r.
Proof.
  intros H. rewrite !preprocess_post, re_split_space by assumption.
  rewrite !post_cons, strip_space_char by assumption. reflexivity.
Qed.

(** The head of a split is a plain piece, and a prefix of the text as far
    as a leading hyphen goes. *)
Lemma re_split_head text :
  exists p tl,
    re_split text = p :: tl /\ plainb p = true /\
    (starts_with_dash p = true -> starts_with_dash text = true).
Proof.
  apply (re_split_ind (fun text l => exists p tl,
    l = p :: tl /\ plainb p = true /\
    (starts_with_dash p = true -> starts_with_dash text = true))).
  - now exists EmptyString, [].
  - intros c r _ _. now eexists _, _.
  - intros r _. now eexists _, _.
  - intros c r _ _. now eexists _, _.
  - intros c r Hw Hd (p & tl & -> & Hp & Hs).
    exists (String c p), tl. repeat split; [|easy].
    cbn [plainb]. rewrite Hw, Hp. cbn.
    destruct (is_dash c); [|reflexivity]. cbn in Hd |- *.
    destruct (starts_with_dash p); [|reflexivity].
    now rewrite Hs in Hd.
Qed.

Lemma preprocess_word c r :
  word_char c = true ->
  is_dash c && starts_with_dash r = false ->
  exists p tl,
    re_split r = p :: tl /\ plainb (String c p) = true /\
    preprocess (String c r) = String c p :: post tl /\
    preprocess r = flush p ++ post tl.
Proof.
  intros Hw Hd. destruct (re_split_head r) as (p & tl & E & Hp & Hs).
  assert (Hcp : plainb (String c p) = true).
  { cbn [plainb]. rewrite Hw, Hp. cbn.
    destruct (is_dash c); [|reflexivity]. cbn in Hd |- *.
    destruct (starts_with_dash p); [|reflexivity].
    now rewrite Hs in Hd. }
  exists p, tl. repeat split; try assumption.
  - rewrite preprocess_post, re_split_word, E by assumption.
    cbn [cons_first]. now rewrite post_flush_plain.
  - rewrite preprocess_post, E. now apply post_flush_plain.
Qed.

(** Induction over a text following what the pre-tokenizer emits. *)
Lemma preprocess_ind (P : string -> list string -> Prop) :
  P EmptyString [] ->
  (forall c r, in_class split_class c = true ->
     P r (preprocess r) ->
     P (String c r) (String c EmptyString :: preprocess r)) ->
  (forall r, P r (preprocess r) ->
     P (String "-" (String "-" r)) ("--" :: preprocess r)) ->
  (forall c r, isspace c = true ->
     P r (preprocess r) -> P (String c r) (preprocess r)) ->
  (forall c r p rest, word_char c = true ->
     plainb (String c p) = true ->
     preprocess r = flush p ++ rest ->
     P r (flush p ++ rest) ->
     P (String c r) (String c p :: rest)) ->
  forall text, P text (preprocess text).
Proof.
  intros Hnil Hcls Hdd Hsp Hw text. rewrite preprocess_post.
  apply (re_split_ind (fun text l => P text (post l))).
  - exact Hnil.
  - intros c r Hc IH. rewrite <- !preprocess_post in *.
    rewrite <- re_split_class, <- preprocess_post, preprocess_class by assumption.
    now apply Hcls.
  - intros r IH. rewrite <- !preprocess_post in *.
    rewrite <- re_split_dashes, <- preprocess_post, preprocess_dashes.
    now apply Hdd.
  - intros c r Hc IH. rewrite <- !preprocess_post in *.
    rewrite <- re_split_space, <- preprocess_post, preprocess_space by assumption.
    now apply Hsp.
  - intros c r Hc Hd IH. rewrite <- !preprocess_post in *.
    rewrite <- re_split_word, <- preprocess_post by assumption.
    destruct (preprocess_word c r Hc Hd) as (p & tl & _ & Hp & E1 & E2).
    rewrite E1. apply Hw; try assumption. now rewrite <- E2.
Qed.

Lemma Forall_flush_app (Q : string -> Prop) p rest :
  Forall Q (flush p ++ rest) -> Forall Q rest.
Proof.
  unfold flush. destruct (nonempty p); cbn; [|easy].
  intros H. now inversion H.
Qed.

(** Every symbol the pre-tokenizer emits has the shape [symbolb]. *)
Lemma preprocess_symbols text : Forall (fun t => symbolb t = true) (preprocess text).
Proof.
  apply (preprocess_ind (fun _ l => Forall (fun t => symbolb t = true) l)).
  - constructor.
  - intros c r Hc IH. constructor; [|assumption].
    unfold symbolb. cbn [is_class_char]. rewrite Hc. now rewrite orb_true_r.
  - intros r IH. now constructor.
  - intros c r _ IH. exact IH.
  - intros c r p rest _ Hp _ IH. constructor.
    + unfold symbolb. now rewrite Hp.
    + now apply Forall_flush_app in IH.
Qed.

(* ================================================================== *)
(** * Splitting what was joined *)

Lemma append_nil_r (s : string) : (s ++ EmptyString)%string = s.
Proof. induction s as [|c s IH]; cbn; congruence. Qed.

Lemma append_assoc (a b c : string) :
  ((a ++ b) ++ c)%string = (a ++ (b ++ c))%string.
Proof. induction a as [|x a IH]; cbn; congruence. Qed.

Lemma sep_start_not_dash r :
  sep_start r = true -> starts_with_dash r = false.
Proof.
  destruct r as [|c r]; [easy|]. cbn. intros H.
  destruct (is_dash c) eqn:Hd; [|reflexivity].
  apply orb_true_iff in H as [H|H].
  - apply class_not_dash in H. congruence.
  - apply dash_not_space in Hd. congruence.
Qed.

Lemma sep_start_split r :
  sep_start r = true -> exists tl, re_split r = EmptyString :: tl.
Proof.
  destruct r as [|c r]; [now exists []|]. cbn [sep_start]. intros H.
  apply orb_true_iff in H as [H|H].
  - rewrite re_split_class by assumption. now eexists.
  - rewrite re_split_space by assumption. now eexists.
Qed.

Lemma starts_with_dash_app w r :
  starts_with_dash (w ++ r)
  = if nonempty w then starts_with_dash w else starts_with_dash r.
Proof. now destruct w. Qed.

Lemma re_split_plain_app w r tl :
  plainb w = true -> sep_start r = true ->
  re_split r = EmptyString :: tl ->
  re_split (w ++ r) = w :: tl.
Proof.
  intros Hw Hr E. induction w as [|c w IH]; [exact E|].
  cbn [plainb] in Hw.
  apply andb_true_iff in Hw as [Hw Hp].
  apply andb_true_iff in Hw as [Hc Hd]. apply negb_true_iff in Hd.
  cbn [append]. rewrite re_split_word; [| assumption |].
  - now rewrite (IH Hp).
  - rewrite starts_with_dash_app. destruct w; [|exact Hd].
    cbn [nonempty]. rewrite (sep_start_not_dash _ Hr). apply andb_false_r.
Qed.

Lemma preprocess_symbol_app t r :
  symbolb t = true -> sep_start r = true ->
  preprocess (t ++ r) = t :: preprocess r.
Proof.
  unfold symbolb. intros Ht Hr.
  apply orb_true_iff in Ht as [Ht|Ht]; [apply orb_true_iff in Ht as [Ht|Ht]|].
  - apply andb_true_iff in Ht as [Hne Hp].
    destruct (sep_start_split r Hr) as [tl E].
    rewrite !preprocess_post, (re_split_plain_app t r tl), E by assumption.
    rewrite post_flush_plain by assumption.
    rewrite (post_cons EmptyString). unfold flush. now rewrite Hne.
  - destruct t as [|c [|]]; try discriminate. cbn [is_class_char] in Ht.
    cbn [append]. now apply preprocess_class.
  - apply String.eqb_eq in Ht. subst t. apply preprocess_dashes.
Qed.

Lemma preprocess_symbol t : symbolb t = true -> preprocess t = [t].
Proof.
  intros H. rewrite <- (append_nil_r t) at 1.
  now rewrite preprocess_symbol_app.
Qed.

Section Rejoin.
Variable cls : list ascii.
Hypothesis cls_split :
  forall c, in_class cls c = true -> in_class split_class c = true.

Lemma re_sub_no_space_app t r :
  no_space t = true -> re_sub cls (t ++ r) = (t ++ re_sub cls r)%string.
Proof.
  induction t as [|c t IH]; [easy|]. cbn [no_space]. intros H.
  apply andb_true_iff in H as [Hc Ht]. apply negb_true_iff in Hc.
  cbn [append re_sub]. rewrite Hc. cbn. now rewrite IH.
Qed.

Lemma join_cons sep t ts :
  exists rest, join sep (t :: ts) = (t ++ rest)%string.
Proof.
  destruct ts as [|t' ts].
  - exists EmptyString. cbn. now rewrite append_nil_r.
  - now eexists.
Qed.

(** Joining symbols with one space, deleting the whitespace in front of
    the class, and splitting again gives the symbols back. *)
Lemma preprocess_re_sub_join ts :
  Forall (fun t => symbolb t = true) ts ->
  preprocess (re_sub cls (join " " ts)) = ts.
Proof.
  induction ts as [|t ts IH]; [easy|]. intros H.
  inversion H as [|? ? Ht Hts]; subst. specialize (IH Hts).
  destruct ts as [|t' ts].
  - cbn [join String.concat]. rewrite <- (append_nil_r t) at 1.
    rewrite re_sub_no_space_app by now apply symbolb_no_space.
    cbn [re_sub]. rewrite append_nil_r. now apply preprocess_symbol.
  - change (join " " (t :: t' :: ts))
      with (t ++ String " " (join " " (t' :: ts)))%string.
    rewrite re_sub_no_space_app by now apply symbolb_no_space.
    inversion Hts as [|? ? Ht' _]; subst.
    destruct (join_cons " " t' ts) as [rest E].
    remember (join " " (t' :: ts)) as R eqn:HR. clear HR.
    pose proof (symbolb_nonempty _ Ht') as Hne.
    pose proof (symbolb_no_space _ Ht') as Hns.
    destruct t' as [|c' t']; [discriminate|].
    cbn [no_space] in Hns. apply andb_true_iff in Hns as [Hc' _].
    apply negb_true_iff in Hc'.
    subst R. cbn [append] in *.
    cbn [re_sub before_class] in *. rewrite Hc' in *.
    cbn [andb] in *.
    change (isspace " ") with true. cbn [andb].
    destruct (in_class cls c') eqn:Hcls.
    + rewrite preprocess_symbol_app; [now rewrite IH | assumption |].
      cbn [sep_start]. now rewrite (cls_split _ Hcls).
    + rewrite preprocess_symbol_app; [| assumption | reflexivity].
      now rewrite preprocess_space, IH.
Qed.
End Rejoin.

(* ================================================================== *)
(** * Facts on dictionaries *)

Section DictFacts.
Context {K V : Type} (eqb : K -> K -> bool).
Hypothesis eqb_eq : forall a b, eqb a b = true <-> a = b.
Implicit Types (d kvs : list (K * V)) (k : K) (v : V).
Implicit Types (start : option V).

Lemma eqb_refl' a : eqb a a = true.
Proof. now apply eqb_eq. Qed.

Lemma eqb_neq' a b : a <> b -> eqb a b = false.
Proof.
  intros H. destruct (eqb a b) eqn:E; [|reflexivity].
  apply eqb_eq in E. contradiction.
Qed.

Lemma dict_get_set d k v k' :
  dict_get eqb (dict_set eqb d k v) k'
  = if eqb k' k then Some v else dict_get eqb d k'.
Proof.
  induction d as [|[k0 v0] d IH]; cbn [dict_set dict_get].
  - reflexivity.
  - destruct (eqb k k0) eqn:E.
    + apply eqb_eq in E. subst k0. cbn [dict_get].
      now destruct (eqb k' k).
    + cbn [dict_get]. rewrite IH.
      destruct (eqb k' k0) eqn:E0; [|reflexivity].
      apply eqb_eq in E0. subst k0.
      destruct (eqb k' k) eqn:E1; [|reflexivity].
      apply eqb_eq in E1. subst k'. rewrite eqb_refl' in E. discriminate.
Qed.

Lemma dict_get_fold kvs : forall d k,
  dict_get eqb
    (fold_left (fun d kv => dict_set eqb d (fst kv) (snd kv)) kvs d) k
  = lookup_last eqb k kvs (dict_get eqb d k).
Proof.
  induction kvs as [|[k0 v0] kvs IH]; intros d k; [reflexivity|].
  cbn [fold_left lookup_last fst snd]. rewrite IH, dict_get_set.
  reflexivity.
Qed.

Lemma dict_get_of kvs k :
  dict_get eqb (dict_of eqb kvs) k = lookup_last eqb k kvs None.
Proof. unfold dict_of. now rewrite dict_get_fold. Qed.

Lemma lookup_last_app k (l1 l2 : list (K * V)) start :
  lookup_last eqb k (l1 ++ l2) start = lookup_last eqb k l2 (lookup_last eqb k l1 start).
Proof. unfold lookup_last. apply fold_left_app. Qed.

Lemma lookup_last_Some k kvs : forall start v,
  lookup_last eqb k kvs start = Some v -> In (k, v) kvs \/ start = Some v.
Proof.
  induction kvs as [|[k0 v0] kvs IH]; intros start v H; [now right|].
  cbn [lookup_last fold_left fst snd] in H. apply IH in H as [H|H].
  - left. now right.
  - destruct (eqb k k0) eqn:E; [|now right].
    apply eqb_eq in E. subst k0. inversion H; subst. left. now left.
Qed.

Lemma lookup_last_None k kvs : forall start,
  lookup_last eqb k kvs start = None <-> start = None /\ ~ In k (map fst kvs).
Proof.
  induction kvs as [|[k0 v0] kvs IH]; intros start.
  - cbn. tauto.
  - cbn [lookup_last fold_left fst snd map In].
    change (fold_left _ kvs ?s) with (lookup_last eqb k kvs s).
    rewrite IH. destruct (eqb k k0) eqn:E.
    + apply eqb_eq in E. subst k0. split; [intros [H _]; discriminate|].
      intros [_ H]. exfalso. apply H. now left.
    + split; intros [H1 H2]; (split; [exact H1|]).
      * intros [H|H]; [|contradiction]. subst k0. rewrite eqb_refl' in E.
        discriminate.
      * intros H. apply H2. now right.
Qed.

Lemma lookup_last_In k v kvs start :
  In (k, v) kvs -> exists v', lookup_last eqb k kvs start = Some v'.
Proof.
  intros H. destruct (lookup_last eqb k kvs start) as [v'|] eqn:E.
  - now exists v'.
  - apply lookup_last_None in E as [_ E]. exfalso. apply E.
    apply in_map_iff. now exists (k, v).
Qed.

Lemma keys_dict_set d k v :
  keys (dict_set eqb d k v)
  = if dict_mem eqb d k then keys d else keys d ++ [k].
Proof.
  unfold dict_mem, keys. induction d as [|[k0 v0] d IH]; [reflexivity|].
  cbn [dict_set dict_get]. destruct (eqb k k0) eqn:E; [reflexivity|].
  cbn [map fst]. rewrite IH.
  now destruct (dict_get eqb d k).
Qed.

Lemma dict_mem_keys d k : dict_mem eqb d k = true <-> In k (keys d).
Proof.
  unfold dict_mem, keys. induction d as [|[k0 v0] d IH]; [easy|].
  cbn [dict_get map fst In]. destruct (eqb k k0) eqn:E.
  - apply eqb_eq in E. subst. tauto.
  - rewrite IH. split; [tauto|]. intros [H|H]; [|exact H].
    subst. rewrite eqb_refl' in E. discriminate.
Qed.

Lemma NoDup_keys_set d k v :
  NoDup (keys d) -> NoDup (keys (dict_set eqb d k v)).
Proof.
  intros H. rewrite keys_dict_set.
  destruct (dict_mem eqb d k) eqn:E; [exact H|].
  apply NoDup_app; [exact H | repeat constructor; easy |].
  intros x Hx [Hk|[]]. subst x.
  apply dict_mem_keys in Hx. congruence.
Qed.

Lemma NoDup_keys_of kvs : NoDup (keys (dict_of eqb kvs)).
Proof.
  unfold dict_of.
  assert (G : forall d, NoDup (keys d) ->
    NoDup (keys (fold_left
      (fun d kv => dict_set eqb d (fst kv) (snd kv)) kvs d))).
  { induction kvs as [|kv kvs IH]; intros d Hd; [exact Hd|].
    cbn [fold_left]. apply IH. now apply NoDup_keys_set. }
  apply G. constructor.
Qed.

Lemma dict_get_In d k v :
  NoDup (keys d) -> (dict_get eqb d k = Some v <-> In (k, v) d).
Proof.
  unfold keys. induction d as [|[k0 v0] d IH]; intros Hd.
  - cbn. split; [discriminate|tauto].
  - cbn [map fst] in Hd. inversion Hd as [|? ? Hn Hd']; subst.
    cbn [dict_get In]. destruct (eqb k k0) eqn:E.
    + apply eqb_eq in E. subst k0. split.
      * intros H. inversion H. now left.
      * intros [H|H]; [now inversion H|].
        exfalso. apply Hn. apply in_map_iff. now exists (k, v).
    + rewrite (IH Hd'). split; [tauto|]. intros [H|H]; [|exact H].
      inversion H; subst. rewrite eqb_refl' in E. discriminate.
Qed.
End DictFacts.

(* ================================================================== *)
(** * Facts on [sorted] *)

Lemma ascii_compare_lt a b :
  Ascii.compare a b = Lt <-> (N_of_ascii a < N_of_ascii b)%N.
Proof. unfold Ascii.compare. apply N.compare_lt_iff. Qed.

Lemma ascii_compare_eq a b : Ascii.compare a b = Eq <-> a = b.
Proof.
  split; [apply Ascii.compare_eq_iff|]. intros ->.
  unfold Ascii.compare. apply N.compare_refl.
Qed.

Lemma string_compare_refl s : String.compare s s = Eq.
Proof.
  induction s as [|c s IH]; [reflexivity|]. cbn.
  now rewrite (proj2 (ascii_compare_eq c c) eq_refl).
Qed.

Lemma string_compare_lt_trans s1 : forall s2 s3,
  String.compare s1 s2 = Lt -> String.compare s2 s3 = Lt ->
  String.compare s1 s3 = Lt.
Proof.
  induction s1 as [|a s1 IH]; intros [|b s2] [|c s3]; cbn; try easy.
  destruct (Ascii.compare a b) eqn:Eab; try easy;
  destruct (Ascii.compare b c) eqn:Ebc; try easy; intros H1 H2.
  - apply ascii_compare_eq in Eab, Ebc. subst.
    rewrite (proj2 (ascii_compare_eq c c) eq_refl). now apply (IH s2).
  - apply ascii_compare_eq in Eab. subst. now rewrite Ebc.
  - apply ascii_compare_eq in Ebc. subst. now rewrite Eab.
  - apply ascii_compare_lt in Eab, Ebc.
    assert (E : Ascii.compare a c = Lt)
      by (apply ascii_compare_lt; eapply N.lt_trans; eassumption).
    now rewrite E.
Qed.

Lemma slt_sle a b : slt a b -> sle a b.
Proof.
  unfold slt, sle, String.ltb, String.leb.
  now destruct (String.compare a b).
Qed.

Lemma not_slt_sle a b : (a <? b)%string = false -> sle b a.
Proof.
  unfold sle, String.ltb, String.leb. rewrite (String.compare_antisym a b).
  now destruct (String.compare b a).
Qed.

Lemma sle_cases a b : sle a b <-> slt a b \/ a = b.
Proof.
  unfold sle, slt, String.leb, String.ltb. split.
  - destruct (String.compare a b) eqn:E; try easy; [|now left].
    right. now apply String.compare_eq_iff.
  - intros [H| ->]; [now destruct (String.compare a b)|].
    now rewrite string_compare_refl.
Qed.

Lemma slt_trans a b c : slt a b -> slt b c -> slt a c.
Proof.
  unfold slt, String.ltb. intros H1 H2.
  destruct (String.compare a b) eqn:E1; try discriminate.
  destruct (String.compare b c) eqn:E2; try discriminate.
  now rewrite (string_compare_lt_trans a b c).
Qed.

Lemma slt_irrefl a : ~ slt a a.
Proof. unfold slt, String.ltb. now rewrite string_compare_refl. Qed.

Lemma sle_trans a b c : sle a b -> sle b c -> sle a c.
Proof.
  rewrite !sle_cases. intros [H1| ->] [H2| ->]; auto.
  left. now apply (slt_trans a b c).
Qed.

Lemma sle_antisym a b : sle a b -> sle b a -> a = b.
Proof. apply String.leb_antisym. Qed.

Lemma insert_sorted_perm x l : Permutation (insert_sorted x l) (x :: l).
Proof.
  induction l as [|y l IH]; cbn; [reflexivity|].
  destruct (x <? y)%string; [reflexivity|].
  rewrite IH. apply perm_swap.
Qed.

Lemma insert_sorted_sorted x l :
  StronglySorted sle l -> StronglySorted sle (insert_sorted x l).
Proof.
  induction l as [|y l IH]; cbn; intros H.
  - repeat constructor.
  - inversion H as [|? ? Hl Hy]; subst.
    destruct (x <? y)%string eqn:E.
    + constructor; [exact H|]. apply slt_sle in E.
      constructor; [exact E|].
      eapply Forall_impl; [|exact Hy]. intros z. now apply sle_trans.
    + constructor; [now apply IH|].
      apply not_slt_sle in E.
      apply (Permutation_Forall (Permutation_sym (insert_sorted_perm x l))).
      now constructor.
Qed.

Lemma sorted_fold_perm l : forall acc,
  Permutation (fold_left (fun acc x => insert_sorted x acc) l acc) (l ++ acc).
Proof.
  induction l as [|x l IH]; intros acc; cbn [fold_left app]; [reflexivity|].
  rewrite IH, insert_sorted_perm. symmetry. apply Permutation_middle.
Qed.

Lemma sorted_perm l : Permutation (sorted l) l.
Proof. unfold sorted. rewrite sorted_fold_perm. now rewrite app_nil_r. Qed.

Lemma sorted_fold_sorted l : forall acc,
  StronglySorted sle acc ->
  StronglySorted sle (fold_left (fun acc x => insert_sorted x acc) l acc).
Proof.
  induction l as [|x l IH]; intros acc H; cbn [fold_left]; [exact H|].
  apply IH. now apply insert_sorted_sorted.
Qed.

Lemma sorted_sorted l : StronglySorted sle (sorted l).
Proof. apply sorted_fold_sorted. constructor. Qed.

Lemma sorted_In l x : In x (sorted l) <-> In x l.
Proof.
  split; apply Permutation_in; [|symmetry]; apply sorted_perm.
Qed.

Lemma sorted_length l : List.length (sorted l) = List.length l.
Proof. apply Permutation_length, sorted_perm. Qed.

Lemma sorted_NoDup l : NoDup l -> NoDup (sorted l).
Proof.
  intros H. eapply Permutation_NoDup; [|exact H].
  symmetry. apply sorted_perm.
Qed.

(** A sorted list without repetition is strictly increasing. *)
Lemma sle_NoDup_slt l :
  StronglySorted sle l -> NoDup l -> StronglySorted slt l.
Proof.
  induction l as [|x l IH]; intros Hs Hn; [constructor|].
  inversion Hs as [|? ? Hl Hx]; inversion Hn as [|? ? Hni Hnl]; subst.
  constructor; [now apply IH|].
  rewrite Forall_forall in *. intros y Hy.
  destruct (proj1 (sle_cases x y) (Hx y Hy)) as [H|H]; [exact H|].
  subst. contradiction.
Qed.

(** There is one sorted arrangement of a collection of strings. *)
Lemma sorted_unique l1 : forall l2,
  StronglySorted sle l1 -> StronglySorted sle l2 ->
  Permutation l1 l2 -> l1 = l2.
Proof.
  induction l1 as [|a l1 IH]; intros l2 H1 H2 HP.
  - apply Permutation_nil in HP. now subst.
  - destruct l2 as [|b l2].
    + symmetry in HP. now apply Permutation_nil in HP.
    + inversion H1 as [|? ? H1l H1a]; inversion H2 as [|? ? H2l H2b]; subst.
      assert (a = b) as ->.
      { rewrite Forall_forall in H1a, H2b.
        assert (Ha : In a (b :: l2))
          by (eapply Permutation_in; [exact HP | now left]).
        assert (Hb : In b (a :: l1))
          by (eapply Permutation_in; [symmetry; exact HP | now left]).
        destruct Ha as [Ha|Ha]; [now subst|].
        destruct Hb as [Hb|Hb]; [now subst|].
        apply sle_antisym; [now apply H1a | now apply H2b]. }
      f_equal. apply IH; try assumption.
      now apply Permutation_cons_inv in HP.
Qed.

Lemma sorted_permutation l1 l2 :
  Permutation l1 l2 -> sorted l1 = sorted l2.
Proof.
  intros H. apply sorted_unique; try apply sorted_sorted.
  rewrite !sorted_perm. exact H.
Qed.

Lemma set_of_iteration src : set_iteration src (set_of src).
Proof.
  split; [apply NoDup_nodup|]. intros x. apply nodup_In.
Qed.

Lemma set_iteration_perm src l1 l2 :
  set_iteration src l1 -> set_iteration src l2 -> Permutation l1 l2.
Proof.
  intros [N1 H1] [N2 H2]. apply NoDup_Permutation; try assumption.
  intros x. now rewrite H1, H2.
Qed.

(* ================================================================== *)
(** * Facts on vocabularies *)

Lemma vocab_of_eq tokens :
  vocab_of tokens = dict_of String.eqb (map swap_it (enumerate tokens)).
Proof. reflexivity. Qed.

Lemma enumerate_from_app {A} (l1 l2 : list A) : forall k,
  enumerate_from k (l1 ++ l2)
  = enumerate_from k l1 ++ enumerate_from (k + List.length l1) l2.
Proof.
  induction l1 as [|x l1 IH]; intros k; cbn [enumerate_from app List.length].
  - now rewrite Nat.add_0_r.
  - rewrite IH. do 3 f_equal. lia.
Qed.

Lemma enumerate_from_In {A} (l : list A) : forall k i x,
  In (i, x) (enumerate_from k l) <-> k <= i /\ nth_error l (i - k) = Some x.
Proof.
  induction l as [|y l IH]; intros k i x; cbn [enumerate_from In].
  - split; [tauto|]. intros [_ H]. now destruct (i - k).
  - rewrite IH. split.
    + intros [H|[H1 H2]].
      * inversion H; subst. split; [lia|]. now rewrite Nat.sub_diag.
      * split; [lia|]. replace (i - k) with (S (i - S k)) by lia. exact H2.
    + intros [H1 H2]. destruct (Nat.eq_dec i k) as [->|Hne].
      * rewrite Nat.sub_diag in H2. cbn in H2. inversion H2. now left.
      * right. split; [lia|].
        replace (i - k) with (S (i - S k)) in H2 by lia. exact H2.
Qed.

Lemma In_swap_enumerate tokens s i :
  In (s, i) (map swap_it (enumerate tokens)) <-> nth_error tokens i = Some s.
Proof.
  rewrite in_map_iff. unfold enumerate. split.
  - intros [[j x] [E H]]. inversion E; subst.
    apply enumerate_from_In in H as [_ H]. now rewrite Nat.sub_0_r in H.
  - intros H. exists (i, s). split; [reflexivity|].
    apply enumerate_from_In. rewrite Nat.sub_0_r. split; [lia|exact H].
Qed.

Lemma keys_swap_enumerate_from tokens : forall k,
  map fst (map swap_it (enumerate_from k tokens)) = tokens.
Proof.
  induction tokens as [|t tokens IH]; intros k; [reflexivity|].
  cbn. now rewrite IH.
Qed.

Lemma vocab_get tokens s :
  dict_get String.eqb (vocab_of tokens) s
  = lookup_last String.eqb s (map swap_it (enumerate tokens)) None.
Proof. rewrite vocab_of_eq. apply dict_get_of. apply String.eqb_eq. Qed.

(** An ID bound to a symbol is a position of that symbol in the list. *)
Lemma vocab_get_nth tokens s i :
  dict_get String.eqb (vocab_of tokens) s = Some i ->
  nth_error tokens i = Some s.
Proof.
  rewrite vocab_get. intros H.
  apply (lookup_last_Some String.eqb String.eqb_eq) in H as [H|H];
    [|discriminate].
  now apply In_swap_enumerate.
Qed.

Lemma vocab_mem tokens s :
  dict_mem String.eqb (vocab_of tokens) s = true <-> In s tokens.
Proof.
  unfold dict_mem. rewrite vocab_get.
  destruct (lookup_last _ _ _ _) as [i|] eqn:E.
  - split; [intros _|reflexivity].
    apply (lookup_last_Some String.eqb String.eqb_eq) in E as [E|E];
      [|discriminate].
    apply In_swap_enumerate in E. eapply nth_error_In. exact E.
  - split; [discriminate|]. intros H. exfalso.
    apply (lookup_last_None String.eqb String.eqb_eq) in E as [_ E].
    apply E. unfold enumerate. now rewrite keys_swap_enumerate_from.
Qed.

Lemma vocab_get_In tokens s :
  In s tokens -> exists i, dict_get String.eqb (vocab_of tokens) s = Some i.
Proof.
  intros H. apply vocab_mem in H. unfold dict_mem in H.
  destruct (dict_get _ _ _) as [i|]; [now exists i | discriminate].
Qed.

(** Without repetition, a symbol's ID is its position. *)
Lemma vocab_get_NoDup tokens s i :
  NoDup tokens -> nth_error tokens i = Some s ->
  dict_get String.eqb (vocab_of tokens) s = Some i.
Proof.
  intros Hn H.
  destruct (vocab_get_In tokens s) as [j Hj]; [eapply nth_error_In; eauto|].
  rewrite Hj. f_equal. apply vocab_get_nth in Hj.
  apply (proj1 (NoDup_nth_error tokens) Hn); [|congruence].
  apply nth_error_Some. congruence.
Qed.

(** The bindings of a list extended at its end. *)
Lemma vocab_get_app l1 l2 s :
  dict_get String.eqb (vocab_of (l1 ++ l2)) s
  = lookup_last String.eqb s
      (map swap_it (enumerate_from (List.length l1) l2))
      (dict_get String.eqb (vocab_of l1) s).
Proof.
  rewrite !vocab_get. unfold enumerate.
  now rewrite enumerate_from_app, map_app, lookup_last_app.
Qed.

Lemma vocab_inj tokens s s' i :
  dict_get String.eqb (vocab_of tokens) s = Some i ->
  dict_get String.eqb (vocab_of tokens) s' = Some i -> s = s'.
Proof.
  intros H H'. apply vocab_get_nth in H, H'. congruence.
Qed.

Lemma vocab_NoDup_keys tokens : NoDup (keys (vocab_of tokens)).
Proof. apply NoDup_keys_of. apply String.eqb_eq. Qed.

(** ** The two special tokens of [all_tokens] *)

Lemma all_tokens_from_get_unk iter :
  dict_get String.eqb (vocab_of (all_tokens_from iter)) unk
  = Some (List.length iter + 1).
Proof.
  unfold all_tokens_from. rewrite vocab_get_app, sorted_length.
  cbn -[dict_get vocab_of]. f_equal. lia.
Qed.

Lemma all_tokens_from_get_endoftext iter :
  dict_get String.eqb (vocab_of (all_tokens_from iter)) endoftext
  = Some (List.length iter).
Proof.
  unfold all_tokens_from. now rewrite vocab_get_app, sorted_length.
Qed.

Lemma all_tokens_from_get_other iter s :
  s <> endoftext -> s <> unk ->
  dict_get String.eqb (vocab_of (all_tokens_from iter)) s
  = dict_get String.eqb (vocab_of (sorted iter)) s.
Proof.
  intros H1 H2. unfold all_tokens_from. rewrite vocab_get_app.
  cbn -[dict_get vocab_of].
  apply String.eqb_neq in H1, H2. now rewrite H1, H2.
Qed.

(** ** [__init__] *)

Lemma init_int_to_str_sound vocab i s :
  NoDup (keys vocab) ->
  dict_get Nat.eqb (int_to_str (init vocab)) i = Some s ->
  dict_get String.eqb vocab s = Some i.
Proof.
  intros Hn H. cbn [init int_to_str] in H.
  rewrite (dict_get_of Nat.eqb Nat.eqb_eq) in H.
  apply (lookup_last_Some Nat.eqb Nat.eqb_eq) in H as [H|H]; [|discriminate].
  apply in_map_iff in H as [[s' i'] [E H]]. cbn in E. inversion E; subst.
  now apply (dict_get_In String.eqb String.eqb_eq).
Qed.

Lemma init_int_to_str_complete vocab i s :
  NoDup (keys vocab) ->
  (forall s', dict_get String.eqb vocab s' = Some i -> s' = s) ->
  dict_get String.eqb vocab s = Some i ->
  dict_get Nat.eqb (int_to_str (init vocab)) i = Some s.
Proof.
  intros Hn Hinj H. cbn [init int_to_str].
  rewrite (dict_get_of Nat.eqb Nat.eqb_eq).
  apply (dict_get_In String.eqb String.eqb_eq) in H; [|assumption].
  destruct (lookup_last_In Nat.eqb Nat.eqb_eq i s
              (map (fun si : string * nat => (snd si, fst si)) vocab) None)
    as [s' E].
  { apply in_map_iff. now exists (s, i). }
  rewrite E. f_equal.
  apply (lookup_last_Some Nat.eqb Nat.eqb_eq) in E as [E|E]; [|discriminate].
  apply in_map_iff in E as [[s'' i''] [E1 E2]]. cbn in E1.
  inversion E1; subst. apply Hinj.
  now apply (dict_get_In String.eqb String.eqb_eq).
Qed.

Lemma init_vocab_of_inverse tokens s i :
  dict_get String.eqb (vocab_of tokens) s = Some i ->
  dict_get Nat.eqb (int_to_str (init (vocab_of tokens))) i = Some s.
Proof.
  intros H. apply init_int_to_str_complete; try assumption.
  - apply vocab_NoDup_keys.
  - intros s' H'. now apply (vocab_inj tokens s' s i).
Qed.

(* ================================================================== *)
(** * Facts on the tokenizers *)

Lemma mapM_Forall2 {A B} (f : A -> result B) l : forall ys,
  mapM f l = Ok ys <-> Forall2 (fun x y => f x = Ok y) l ys.
Proof.
  induction l as [|x l IH]; intros ys; cbn [mapM].
  - split; intros H; inversion H; [constructor|reflexivity].
  - unfold bind. split.
    + destruct (f x) as [y|] eqn:Ex; [|discriminate].
      destruct (mapM f l) as [ys'|]; [|discriminate].
      intros H. inversion H; subst. constructor; [exact Ex|]. now apply IH.
    + intros H. inversion H as [|? y ? ys' Hy Hys]; subst.
      rewrite Hy. apply IH in Hys. now rewrite Hys.
Qed.

Lemma mapM_map {A B} (f : A -> result B) (g : A -> B) l :
  (forall x, In x l -> f x = Ok (g x)) -> mapM f l = Ok (map g l).
Proof.
  induction l as [|x l IH]; intros H; [reflexivity|].
  cbn [mapM map]. rewrite (H x) by now left. cbn [bind].
  rewrite IH; [reflexivity|]. intros y Hy. apply H. now right.
Qed.

(** A comprehension fails with the failure of one of its elements. *)
Lemma mapM_raise {A B} (f : A -> result B) l x :
  In x l -> is_ok (f x) = false ->
  exists x' e, In x' l /\ f x' = Raise e /\ mapM f l = Raise e.
Proof.
  induction l as [|y l IH]; intros Hin Hx; [destruct Hin|].
  cbn [mapM]. destruct (f y) as [b|e] eqn:Ey.
  - destruct Hin as [->|Hin]; [rewrite Ey in Hx; discriminate|].
    destruct (IH Hin Hx) as (x' & e & H1 & H2 & H3).
    exists x', e. repeat split; [now right | exact H2 |].
    cbn [bind]. now rewrite H3.
  - exists y, e. repeat split; [now left | exact Ey].
Qed.

Lemma lookup_str_Ok tok s i :
  lookup_str tok s = Ok i <-> dict_get String.eqb (str_to_int tok) s = Some i.
Proof.
  unfold lookup_str. destruct (dict_get _ _ _); split; congruence.
Qed.

Lemma lookup_int_Ok tok i s :
  lookup_int tok i = Ok s <-> dict_get Nat.eqb (int_to_str tok) i = Some s.
Proof.
  unfold lookup_int. destruct (dict_get _ _ _); split; congruence.
Qed.

Lemma special_symbols : symbolb endoftext = true /\ symbolb unk = true.
Proof. split; reflexivity. Qed.

Lemma all_words_In raw_text s :
  In s (all_words raw_text) <-> In s (preprocess raw_text).
Proof.
  unfold all_words, all_words_from, set_of.
  now rewrite sorted_In, nodup_In.
Qed.

Lemma all_tokens_In raw_text s :
  In s (all_tokens raw_text)
  <-> In s (preprocess raw_text) \/ s = endoftext \/ s = unk.
Proof.
  unfold all_tokens, all_tokens_from, set_of.
  rewrite in_app_iff, sorted_In, nodup_In. cbn [In].
  intuition congruence.
Qed.

Lemma all_words_symbols raw_text s :
  In s (all_words raw_text) -> symbolb s = true.
Proof.
  rewrite all_words_In. intros H.
  now apply (proj1 (Forall_forall _ _) (preprocess_symbols raw_text)).
Qed.

Lemma all_tokens_symbols raw_text s :
  In s (all_tokens raw_text) -> symbolb s = true.
Proof.
  rewrite all_tokens_In. intros [H|[->| ->]]; try reflexivity.
  now apply (proj1 (Forall_forall _ _) (preprocess_symbols raw_text)).
Qed.

Lemma vocab_v2_unk raw_text :
  dict_get String.eqb (vocab_v2 raw_text) unk
  = Some (List.length (all_words raw_text) + 1).
Proof.
  unfold vocab_v2, all_tokens, all_words, all_words_from.
  now rewrite all_tokens_from_get_unk, sorted_length.
Qed.

Lemma vocab_v2_endoftext raw_text :
  dict_get String.eqb (vocab_v2 raw_text) endoftext
  = Some (List.length (all_words raw_text)).
Proof.
  unfold vocab_v2, all_tokens, all_words, all_words_from.
  now rewrite all_tokens_from_get_endoftext, sorted_length.
Qed.

Lemma encode_v2_map vocab text :
  dict_mem String.eqb vocab unk = true ->
  SimpleTokenizerV2.encode (init vocab) text
  = Ok (map (id_v2 vocab) (preprocess text)).
Proof.
  intros Hu. unfold SimpleTokenizerV2.encode. cbn [init str_to_int].
  unfold dict_mem in Hu.
  destruct (dict_get String.eqb vocab unk) as [u|] eqn:Eu; [|discriminate].
  rewrite (mapM_map _ (id_v2 vocab)).
  - rewrite map_map. f_equal. apply map_ext. intros x.
    unfold id_v2, dict_mem.
    destruct (dict_get String.eqb vocab x) eqn:E; [now rewrite E|].
    now rewrite Eu.
  - intros s Hs. apply in_map_iff in Hs as [x [<- _]].
    unfold lookup_str, id_v2, dict_mem. cbn [init str_to_int].
    destruct (dict_get String.eqb vocab x) eqn:E.
    + now rewrite E.
    + now rewrite Eu.
Qed.

Lemma vocab_v2_mem_unk raw_text :
  dict_mem String.eqb (vocab_v2 raw_text) unk = true.
Proof. unfold dict_mem. now rewrite vocab_v2_unk. Qed.

(** Symbols that are all in the vocabulary are encoded to their IDs. *)
Lemma encode_v2_known vocab strs ids text :
  preprocess text = strs ->
  Forall2 (fun s i => dict_get String.eqb vocab s = Some i) strs ids ->
  SimpleTokenizerV2.encode (init vocab) text = Ok ids.
Proof.
  intros <- H. unfold SimpleTokenizerV2.encode. cbn [init str_to_int].
  apply mapM_Forall2.
  induction H as [|s i strs ids Hs H IH]; [constructor|].
  cbn [map]. unfold dict_mem at 1. rewrite Hs. constructor; [|exact IH].
  apply lookup_str_Ok. exact Hs.
Qed.

Lemma encode_v1_known vocab strs ids text :
  preprocess text = strs ->
  Forall2 (fun s i => dict_get String.eqb vocab s = Some i) strs ids ->
  SimpleTokenizerV1.encode (init vocab) text = Ok ids.
Proof.
  intros <- H. unfold SimpleTokenizerV1.encode.
  apply mapM_Forall2.
  eapply Forall2_impl; [|exact H]. intros s i Hs. now apply lookup_str_Ok.
Qed.

Lemma present_mapM tok ids :
  Forall (fun i => dict_mem Nat.eqb (int_to_str tok) i = true) ids ->
  exists strs,
    Forall2 (fun i s => dict_get Nat.eqb (int_to_str tok) i = Some s) ids strs.
Proof.
  induction 1 as [|i ids Hi _ [strs IH]]; [exists []; constructor|].
  unfold dict_mem in Hi.
  destruct (dict_get Nat.eqb (int_to_str tok) i) as [s|] eqn:E;
    [|discriminate].
  exists (s :: strs). now constructor.
Qed.

Lemma decode_v2_of tok ids strs :
  Forall2 (fun i s => dict_get Nat.eqb (int_to_str tok) i = Some s) ids strs ->
  SimpleTokenizerV2.decode tok ids = Ok (re_sub sub_class_v2 (join " " strs)).
Proof.
  intros H. unfold SimpleTokenizerV2.decode.
  assert (E : mapM (lookup_int tok) ids = Ok strs).
  { apply mapM_Forall2. eapply Forall2_impl; [|exact H].
    intros i s. apply lookup_int_Ok. }
  now rewrite E.
Qed.

Lemma decode_v1_of tok ids strs :
  Forall2 (fun i s => dict_get Nat.eqb (int_to_str tok) i = Some s) ids strs ->
  SimpleTokenizerV1.decode tok ids = Ok (re_sub sub_class_v1 (join " " strs)).
Proof.
  intros H. unfold SimpleTokenizerV1.decode.
  assert (E : mapM (lookup_int tok) ids = Ok strs).
  { apply mapM_Forall2. eapply Forall2_impl; [|exact H].
    intros i s. apply lookup_int_Ok. }
  now rewrite E.
Qed.

Lemma Forall2_flip {A B} (R : A -> B -> Prop) l1 l2 :
  Forall2 R l1 l2 -> Forall2 (fun b a => R a b) l2 l1.
Proof. induction 1; now constructor. Qed.

(* ================================================================== *)
(** * The properties of the specification *)

(** On the second vocabulary every symbol is encoded, an unknown one to
    the ID of the unknown token. *)
Lemma encode_v2_ids (raw_text text : string) :
  exists ids,
    SimpleTokenizerV2.encode (init (vocab_v2 raw_text)) text = Ok ids /\
    List.length ids = List.length (preprocess text) /\
    forall k s, nth_error (preprocess text) k = Some s ->
      dict_mem String.eqb (vocab_v2 raw_text) s = false ->
      nth_error ids k = dict_get String.eqb (vocab_v2 raw_text) unk.
Proof.
  exists (map (id_v2 (vocab_v2 raw_text)) (preprocess text)).
  split; [apply encode_v2_map, vocab_v2_mem_unk|].
  split; [apply length_map|].
  intros k s Hk Hs. rewrite nth_error_map, Hk. cbn [option_map].
  unfold id_v2, dict_mem in *.
  destruct (dict_get String.eqb (vocab_v2 raw_text) s); [discriminate|].
  now rewrite vocab_v2_unk.
Qed.

(** C9. [SimpleTokenizerV2.encode] is total on the vocabulary built with the
    two appended special tokens: for every corpus and every input text it
    returns a list of IDs, one per pre-tokenized symbol, a symbol missing
    from [str_to_int] being encoded as the ID of [<|unk|>], which is always
    in the vocabulary. *)
Theorem encode_v2_total (raw_text text : string) :
  dict_mem String.eqb (vocab_v2 raw_text) unk = true /\
  exists ids,
    SimpleTokenizerV2.encode (init (vocab_v2 raw_text)) text = Ok ids /\
    List.length ids = List.length (preprocess text) /\
    forall k s, nth_error (preprocess text) k = Some s ->
      dict_mem String.eqb (vocab_v2 raw_text) s = false ->
      nth_error ids k = dict_get String.eqb (vocab_v2 raw_text) unk.
Proof.
  split; [apply vocab_v2_mem_unk | apply encode_v2_ids].
Qed.

Lemma encode_v2_total_witness :
  nth_error (preprocess "the palace") 1 = Some "palace" /\
  dict_mem String.eqb (vocab_v2 "the tea") "palace" = false /\
  exists ids,
    SimpleTokenizerV2.encode (init (vocab_v2 "the tea")) "the palace" = Ok ids /\
    nth_error ids 1 = Some 3.
Proof.
  split; [reflexivity|]. split; [reflexivity|].
  destruct (encode_v2_total "the tea" "the palace") as [_ [ids [E [_ H]]]].
  exists ids. split; [exact E|].
  exact (H 1 "palace" eq_refl eq_refl).
Defined.

(** C10. For [SimpleTokenizerV2] built from any corpus, encoding undoes
    decoding on valid ID sequences: if every ID of [ids] is a key of
    [int_to_str], then [decode ids] succeeds and [encode (decode ids)] is
    [ids]. *)
Theorem encode_decode_v2 (raw_text : string) (ids : list nat) :
  Forall (fun i =>
    dict_mem Nat.eqb (int_to_str (init (vocab_v2 raw_text))) i = true) ids ->
  exists text,
    SimpleTokenizerV2.decode (init (vocab_v2 raw_text)) ids = Ok text /\
    SimpleTokenizerV2.encode (init (vocab_v2 raw_text)) text = Ok ids.
Proof.
  intros H. destruct (present_mapM _ _ H) as [strs Hs].
  exists (re_sub sub_class_v2 (join " " strs)).
  split; [now apply decode_v2_of|].
  assert (Hv : Forall2
    (fun s i => dict_get String.eqb (vocab_v2 raw_text) s = Some i) strs ids).
  { apply Forall2_flip. eapply Forall2_impl; [|exact Hs].
    intros i s. apply init_int_to_str_sound. apply vocab_NoDup_keys. }
  apply (encode_v2_known _ strs); [|exact Hv].
  apply preprocess_re_sub_join; [exact sub_class_v2_split|].
  clear H Hs. induction Hv as [|s i strs ids Hs _ IH]; constructor; [|exact IH].
  apply (all_tokens_symbols raw_text). apply vocab_mem.
  unfold dict_mem, vocab_v2 in *. now rewrite Hs.
Qed.

Lemma encode_decode_v2_witness :
  Forall (fun i =>
    dict_mem Nat.eqb (int_to_str (init (vocab_v2 "Hello, world--"))) i = true)
    [2; 0; 3; 4; 1; 5] /\
  exists text,
    SimpleTokenizerV2.decode (init (vocab_v2 "Hello, world--")) [2; 0; 3; 4; 1; 5]
      = Ok text /\
    SimpleTokenizerV2.encode (init (vocab_v2 "Hello, world--")) text
      = Ok [2; 0; 3; 4; 1; 5].
Proof.
  assert (H : Forall (fun i =>
    dict_mem Nat.eqb (int_to_str (init (vocab_v2 "Hello, world--"))) i = true)
    [2; 0; 3; 4; 1; 5]) by (repeat constructor).
  split; [exact H|].
  exact (encode_decode_v2 "Hello, world--" [2; 0; 3; 4; 1; 5] H).
Defined.

Example encode_decode_v2_run :
  SimpleTokenizerV2.decode (init (vocab_v2 "Hello, world--")) [2; 0; 3; 4; 1; 5]
  = Ok "Hello, world <|endoftext|> -- <|unk|>".
Proof. reflexivity. Qed.

(** ** Decoding as a layout of the symbols *)

Lemma re_sub_no_space cls t :
  no_space t = true -> re_sub cls t = t.
Proof.
  intros H. rewrite <- (append_nil_r t) at 1.
  rewrite re_sub_no_space_app by assumption. cbn [re_sub].
  apply append_nil_r.
Qed.

Lemma layout_cons2 cls s s' rest :
  layout cls (s :: s' :: rest)
  = if starts_with_class cls s' then (s ++ layout cls (s' :: rest))%string
    else (s ++ String " " (layout cls (s' :: rest)))%string.
Proof. reflexivity. Qed.

Lemma re_sub_join_layout cls strs :
  Forall (fun s => symbolb s = true) strs ->
  re_sub cls (join " " strs) = layout cls strs.
Proof.
  induction strs as [|s rest IH]; [easy|]. intros H.
  inversion H as [|? ? Hs Hrest]; subst. specialize (IH Hrest).
  destruct rest as [|s' rest].
  - cbn [join String.concat layout].
    now apply re_sub_no_space, symbolb_no_space.
  - change (join " " (s :: s' :: rest))
      with (s ++ String " " (join " " (s' :: rest)))%string.
    rewrite re_sub_no_space_app by now apply symbolb_no_space.
    rewrite layout_cons2, <- IH.
    inversion Hrest as [|? ? Hs' _]; subst.
    destruct (join_cons " " s' rest) as [R E]. rewrite E.
    pose proof (symbolb_nonempty _ Hs') as Hne.
    pose proof (symbolb_no_space _ Hs') as Hns.
    destruct s' as [|c' s']; [discriminate|].
    cbn [no_space] in Hns. apply andb_true_iff in Hns as [Hc' _].
    apply negb_true_iff in Hc'.
    cbn [append re_sub before_class starts_with_class].
    rewrite Hc'. change (isspace " ") with true. cbn [andb].
    now destruct (in_class cls c').
Qed.

(** C3. A pre-tokenized symbol that is absent from the vocabulary: without
    a fallback ([SimpleTokenizerV1], any vocabulary) [encode] fails, and the
    failure surfaced is the KeyError of a symbol of the text that is not in
    the vocabulary; with the fallback ([SimpleTokenizerV2], vocabulary with
    the appended special tokens) [encode] returns the ID of the unknown
    token at the place of that symbol, and decoding that ID gives the
    literal string of the unknown token. *)
Theorem unknown_symbol_handling :
  (forall vocab text s,
     In s (preprocess text) -> dict_mem String.eqb vocab s = false ->
     exists s',
       In s' (preprocess text) /\ dict_mem String.eqb vocab s' = false /\
       SimpleTokenizerV1.encode (init vocab) text = Raise (KeyError_str s')) /\
  (forall raw_text text k s,
     nth_error (preprocess text) k = Some s ->
     dict_mem String.eqb (vocab_v2 raw_text) s = false ->
     exists ids u,
       dict_get String.eqb (vocab_v2 raw_text) unk = Some u /\
       SimpleTokenizerV2.encode (init (vocab_v2 raw_text)) text = Ok ids /\
       nth_error ids k = Some u /\
       SimpleTokenizerV2.decode (init (vocab_v2 raw_text)) [u] = Ok unk).
Proof.
  split.
  - intros vocab text s Hin Hs. unfold SimpleTokenizerV1.encode.
    destruct (mapM_raise (lookup_str (init vocab)) (preprocess text) s Hin)
      as (s' & e & H1 & H2 & H3).
    { unfold lookup_str, dict_mem in *. cbn [init str_to_int].
      now destruct (dict_get String.eqb vocab s). }
    exists s'. split; [exact H1|].
    unfold lookup_str, dict_mem in *. cbn [init str_to_int] in *.
    destruct (dict_get String.eqb vocab s'); [discriminate|].
    inversion H2; subst. now split.
  - intros raw_text text k s Hk Hs.
    destruct (encode_v2_ids raw_text text) as [ids [E [_ H]]].
    exists ids, (List.length (all_words raw_text) + 1).
    split; [apply vocab_v2_unk|]. split; [exact E|].
    split; [rewrite (H k s Hk Hs); apply vocab_v2_unk|].
    rewrite (decode_v2_of _ _ [unk]); [reflexivity|].
    constructor; [|constructor].
    apply init_vocab_of_inverse. apply vocab_v2_unk.
Qed.

Lemma unknown_symbol_handling_witness :
  (In "palace" (preprocess "the palace") /\
   dict_mem String.eqb (vocab_v1 "the tea") "palace" = false /\
   exists s',
     In s' (preprocess "the palace") /\
     dict_mem String.eqb (vocab_v1 "the tea") s' = false /\
     SimpleTokenizerV1.encode (init (vocab_v1 "the tea")) "the palace"
       = Raise (KeyError_str s')) /\
  (nth_error (preprocess "the palace") 1 = Some "palace" /\
   dict_mem String.eqb (vocab_v2 "the tea") "palace" = false /\
   exists ids u,
     dict_get String.eqb (vocab_v2 "the tea") unk = Some u /\
     SimpleTokenizerV2.encode (init (vocab_v2 "the tea")) "the palace" = Ok ids /\
     nth_error ids 1 = Some u /\
     SimpleTokenizerV2.decode (init (vocab_v2 "the tea")) [u] = Ok unk).
Proof.
  destruct unknown_symbol_handling as [H1 H2]. split.
  - split; [right; now left|]. split; [reflexivity|].
    apply (H1 (vocab_v1 "the tea") "the palace" "palace");
      [right; now left | reflexivity].
  - split; [reflexivity|]. split; [reflexivity|].
    apply (H2 "the tea" "the palace" 1 "palace"); reflexivity.
Defined.

Example unknown_symbol_run :
  SimpleTokenizerV1.encode (init (vocab_v1 "the tea")) "the palace"
    = Raise (KeyError_str "palace") /\
  SimpleTokenizerV2.encode (init (vocab_v2 "the tea")) "the palace"
    = Ok [1; 3].
Proof. split; reflexivity. Qed.

(** C2, on the code: [SimpleTokenizerV2.encode] takes no set of allowed
    special tokens, so none is allowed; the text of [<|endoftext|>] is
    encoded to the ID of that token and nothing is raised. *)
Lemma special_token_not_rejected :
  SimpleTokenizerV2.encode (init (vocab_v2 "Hello")) "Hello <|endoftext|>"
    = Ok [0; 1] /\
  ~ exists e,
      SimpleTokenizerV2.encode (init (vocab_v2 "Hello")) "Hello <|endoftext|>"
        = Raise e.
Proof. split; [reflexivity|]. intros [e H]. discriminate H. Qed.

(** C2, as the code has it: [SimpleTokenizerV2.encode] has no notion of an
    allowed special token and never rejects one.  Where the pre-tokenizer
    isolates the literal text of a special token as a symbol, [encode]
    succeeds and puts that token's ID there: the number of distinct corpus
    symbols for [<|endoftext|>], one more for [<|unk|>]; decoding that ID
    gives the literal text back. *)
Theorem special_token_text_encoded (raw_text text : string) (k : nat)
    (special : string) :
  In special [endoftext; unk] ->
  nth_error (preprocess text) k = Some special ->
  exists ids i,
    SimpleTokenizerV2.encode (init (vocab_v2 raw_text)) text = Ok ids /\
    nth_error ids k = Some i /\
    (special = endoftext -> i = List.length (all_words raw_text)) /\
    (special = unk -> i = List.length (all_words raw_text) + 1) /\
    SimpleTokenizerV2.decode (init (vocab_v2 raw_text)) [i] = Ok special.
Proof.
  intros Hsp Hk.
  assert (Hi : exists i,
    dict_get String.eqb (vocab_v2 raw_text) special = Some i /\
    (special = endoftext -> i = List.length (all_words raw_text)) /\
    (special = unk -> i = List.length (all_words raw_text) + 1)).
  { destruct Hsp as [<-|[<-|[]]].
    - eexists. split; [apply vocab_v2_endoftext|]. split; [easy|discriminate].
    - eexists. split; [apply vocab_v2_unk|]. split; [discriminate|easy]. }
  destruct Hi as (i & Hi & H1 & H2).
  exists (map (id_v2 (vocab_v2 raw_text)) (preprocess text)), i.
  split; [apply encode_v2_map, vocab_v2_mem_unk|].
  split; [|split; [exact H1|split; [exact H2|]]].
  - rewrite nth_error_map, Hk. cbn [option_map]. unfold id_v2.
    now rewrite Hi.
  - rewrite (decode_v2_of _ _ [special]).
    + f_equal. cbn [join String.concat].
      destruct Hsp as [<-|[<-|[]]]; reflexivity.
    + constructor; [|constructor].
      now apply init_vocab_of_inverse.
Qed.

Lemma special_token_text_encoded_witness :
  In endoftext [endoftext; unk] /\
  nth_error (preprocess "Hello <|endoftext|>") 1 = Some endoftext /\
  exists ids i,
    SimpleTokenizerV2.encode (init (vocab_v2 "Hello")) "Hello <|endoftext|>"
      = Ok ids /\
    nth_error ids 1 = Some i /\
    (endoftext = endoftext -> i = List.length (all_words "Hello")) /\
    (endoftext = unk -> i = List.length (all_words "Hello") + 1) /\
    SimpleTokenizerV2.decode (init (vocab_v2 "Hello")) [i] = Ok endoftext.
Proof.
  split; [now left|]. split; [reflexivity|].
  apply (special_token_text_encoded "Hello" "Hello <|endoftext|>" 1 endoftext);
    [now left | reflexivity].
Defined.

(** C1, on the code: a text made of vocabulary symbols only does not come
    back from [decode (encode text)]; the decoder puts a space between two
    symbols whether the text had one or not. *)
Lemma roundtrip_fails :
  (r <- SimpleTokenizerV1.encode (init (vocab_v1 "(a)")) "(a)" ;;
   SimpleTokenizerV1.decode (init (vocab_v1 "(a)")) r) = Ok "( a)" /\
  (r <- SimpleTokenizerV2.encode (init (vocab_v2 "(a)")) "(a)" ;;
   SimpleTokenizerV2.decode (init (vocab_v2 "(a)")) r) = Ok "( a)" /\
  Ok "( a)" <> Ok "(a)".
Proof. repeat split; try reflexivity. discriminate. Qed.

Lemma known_symbols_ids tokens strs :
  Forall (fun s => dict_mem String.eqb (vocab_of tokens) s = true) strs ->
  exists ids,
    Forall2 (fun s i => dict_get String.eqb (vocab_of tokens) s = Some i)
            strs ids /\
    Forall2 (fun i s =>
      dict_get Nat.eqb (int_to_str (init (vocab_of tokens))) i = Some s)
            ids strs.
Proof.
  induction 1 as [|s strs Hs _ (ids & IH1 & IH2)].
  - exists []. split; constructor.
  - unfold dict_mem in Hs.
    destruct (dict_get String.eqb (vocab_of tokens) s) as [i|] eqn:E;
      [|discriminate].
    exists (i :: ids). split; constructor; try assumption.
    now apply init_vocab_of_inverse.
Qed.

(** C1, as the code has it.  For a text whose pre-tokenized symbols are all
    in the vocabulary, [decode (encode text)] is the layout of those symbols
    (one space between two symbols, none in front of a symbol that starts
    with a character of the decoder's class), so it is the text itself
    exactly when the text is laid out that way; every text that [decode]
    returns is. *)
Theorem decode_encode_layout (raw_text text : string) :
  (Forall (fun s => dict_mem String.eqb (vocab_v1 raw_text) s = true)
          (preprocess text) ->
   exists ids,
     SimpleTokenizerV1.encode (init (vocab_v1 raw_text)) text = Ok ids /\
     SimpleTokenizerV1.decode (init (vocab_v1 raw_text)) ids
       = Ok (layout sub_class_v1 (preprocess text)) /\
     (layout sub_class_v1 (preprocess text) = text ->
      SimpleTokenizerV1.decode (init (vocab_v1 raw_text)) ids = Ok text) /\
     preprocess (layout sub_class_v1 (preprocess text)) = preprocess text) /\
  (Forall (fun s => dict_mem String.eqb (vocab_v2 raw_text) s = true)
          (preprocess text) ->
   exists ids,
     SimpleTokenizerV2.encode (init (vocab_v2 raw_text)) text = Ok ids /\
     SimpleTokenizerV2.decode (init (vocab_v2 raw_text)) ids
       = Ok (layout sub_class_v2 (preprocess text)) /\
     (layout sub_class_v2 (preprocess text) = text ->
      SimpleTokenizerV2.decode (init (vocab_v2 raw_text)) ids = Ok text) /\
     preprocess (layout sub_class_v2 (preprocess text)) = preprocess text).
Proof.
  pose proof (preprocess_symbols text) as Hsym.
  unfold vocab_v1, vocab_v2. split; intros H.
  - destruct (known_symbols_ids _ _ H) as (ids & H1 & H2).
    assert (D : SimpleTokenizerV1.decode
                  (init (vocab_of (all_words raw_text))) ids
                = Ok (layout sub_class_v1 (preprocess text))).
    { rewrite (decode_v1_of _ _ _ H2). f_equal.
      now apply re_sub_join_layout. }
    exists ids. split; [now apply (encode_v1_known _ (preprocess text))|].
    split; [exact D|]. split; [intros E; now rewrite D, E|].
    rewrite <- (re_sub_join_layout _ _ Hsym).
    apply preprocess_re_sub_join; [exact sub_class_v1_split | exact Hsym].
  - destruct (known_symbols_ids _ _ H) as (ids & H1 & H2).
    assert (D : SimpleTokenizerV2.decode
                  (init (vocab_of (all_tokens raw_text))) ids
                = Ok (layout sub_class_v2 (preprocess text))).
    { rewrite (decode_v2_of _ _ _ H2). f_equal.
      now apply re_sub_join_layout. }
    exists ids. split; [now apply (encode_v2_known _ (preprocess text))|].
    split; [exact D|]. split; [intros E; now rewrite D, E|].
    rewrite <- (re_sub_join_layout _ _ Hsym).
    apply preprocess_re_sub_join; [exact sub_class_v2_split | exact Hsym].
Qed.

Lemma decode_encode_layout_witness :
  Forall (fun s => dict_mem String.eqb (vocab_v2 "you know, I (a)") s = true)
         (preprocess "I know, you( a)") /\
  layout sub_class_v2 (preprocess "I know, you( a)") = "I know, you( a)" /\
  exists ids,
    SimpleTokenizerV2.encode (init (vocab_v2 "you know, I (a)")) "I know, you( a)"
      = Ok ids /\
    SimpleTokenizerV2.decode (init (vocab_v2 "you know, I (a)")) ids
      = Ok "I know, you( a)".
Proof.
  assert (H : Forall
    (fun s => dict_mem String.eqb (vocab_v2 "you know, I (a)") s = true)
    (preprocess "I know, you( a)")) by (vm_compute; repeat constructor).
  split; [exact H|]. split; [vm_compute; reflexivity|].
  destruct (proj2 (decode_encode_layout "you know, I (a)" "I know, you( a)") H)
    as (ids & E & _ & D & _).
  exists ids. split; [exact E|]. apply D. vm_compute. reflexivity.
Defined.

(** ** Whitespace is all that is lost *)

Lemma remove_spaces_app a b :
  remove_spaces (a ++ b) = (remove_spaces a ++ remove_spaces b)%string.
Proof.
  induction a as [|c a IH]; [reflexivity|]. cbn [append remove_spaces].
  destruct (isspace c); cbn [append]; now rewrite IH.
Qed.

Lemma remove_spaces_no_space s : no_space s = true -> remove_spaces s = s.
Proof.
  induction s as [|c s IH]; [reflexivity|]. cbn [no_space remove_spaces].
  intros H. apply andb_true_iff in H as [Hc Hs].
  apply negb_true_iff in Hc. now rewrite Hc, IH.
Qed.

Lemma remove_spaces_layout cls strs :
  Forall (fun s => no_space s = true) strs ->
  remove_spaces (layout cls strs) = concat_all strs.
Proof.
  induction strs as [|s rest IH]; [reflexivity|]. intros H.
  inversion H as [|? ? Hs Hrest]; subst. specialize (IH Hrest).
  destruct rest as [|s' rest].
  - cbn [layout concat_all fold_right]. rewrite append_nil_r.
    now apply remove_spaces_no_space.
  - rewrite layout_cons2.
    change (concat_all (s :: s' :: rest))
      with (s ++ concat_all (s' :: rest))%string.
    destruct (starts_with_class cls s'); rewrite remove_spaces_app;
      cbn [remove_spaces]; change (isspace " ") with true; cbn iota;
      now rewrite IH, remove_spaces_no_space.
Qed.

Lemma vocab_v1_symbols raw_text s i :
  dict_get String.eqb (vocab_v1 raw_text) s = Some i -> symbolb s = true.
Proof.
  intros H. apply (all_words_symbols raw_text). apply vocab_mem.
  unfold dict_mem, vocab_v1 in *. now rewrite H.
Qed.

Lemma vocab_v2_symbols raw_text s i :
  dict_get String.eqb (vocab_v2 raw_text) s = Some i -> symbolb s = true.
Proof.
  intros H. apply (all_tokens_symbols raw_text). apply vocab_mem.
  unfold dict_mem, vocab_v2 in *. now rewrite H.
Qed.

Lemma int_to_str_symbols tokens ids strs :
  (forall s, In s tokens -> symbolb s = true) ->
  Forall2 (fun i s =>
    dict_get Nat.eqb (int_to_str (init (vocab_of tokens))) i = Some s)
    ids strs ->
  Forall (fun s => symbolb s = true) strs.
Proof.
  intros Ht H. induction H as [|i s ids strs Hs _ IH]; constructor; [|exact IH].
  apply init_int_to_str_sound in Hs; [|apply vocab_NoDup_keys].
  apply Ht. apply vocab_mem. unfold dict_mem. now rewrite Hs.
Qed.

(** C4, on the code: [decode] does not concatenate the symbols with no
    separator; the two valid IDs of the symbols a and b decode to the two
    symbols with a space between them. *)
Lemma decode_inserts_space :
  dict_get Nat.eqb (int_to_str (init (vocab_v2 "a b"))) 0 = Some "a" /\
  dict_get Nat.eqb (int_to_str (init (vocab_v2 "a b"))) 1 = Some "b" /\
  SimpleTokenizerV1.decode (init (vocab_v1 "a b")) [0; 1] = Ok "a b" /\
  SimpleTokenizerV2.decode (init (vocab_v2 "a b")) [0; 1] = Ok "a b" /\
  Ok "a b" <> Ok (concat_all ["a"; "b"]).
Proof. repeat split; try reflexivity. discriminate. Qed.

(** C4, as the code has it.  For every sequence of IDs that are all keys of
    [int_to_str] (tokenizer built from any corpus), [decode] looks up each
    ID and returns the symbols in order with one space in front of every
    symbol but the first, except that no space comes in front of a symbol
    that starts with a character of the decoder's class; without those
    spaces the result is the concatenation of the symbols. *)
Theorem decode_layout (raw_text : string) (ids : list nat) :
  (Forall (fun i =>
     dict_mem Nat.eqb (int_to_str (init (vocab_v1 raw_text))) i = true) ids ->
   exists strs,
     Forall2 (fun i s =>
       dict_get Nat.eqb (int_to_str (init (vocab_v1 raw_text))) i = Some s)
       ids strs /\
     SimpleTokenizerV1.decode (init (vocab_v1 raw_text)) ids
       = Ok (layout sub_class_v1 strs) /\
     remove_spaces (layout sub_class_v1 strs) = concat_all strs) /\
  (Forall (fun i =>
     dict_mem Nat.eqb (int_to_str (init (vocab_v2 raw_text))) i = true) ids ->
   exists strs,
     Forall2 (fun i s =>
       dict_get Nat.eqb (int_to_str (init (vocab_v2 raw_text))) i = Some s)
       ids strs /\
     SimpleTokenizerV2.decode (init (vocab_v2 raw_text)) ids
       = Ok (layout sub_class_v2 strs) /\
     remove_spaces (layout sub_class_v2 strs) = concat_all strs).
Proof.
  split; intros H; destruct (present_mapM _ _ H) as [strs Hs]; exists strs.
  - assert (Hsym : Forall (fun s => symbolb s = true) strs)
      by (eapply int_to_str_symbols; [apply all_words_symbols | exact Hs]).
    split; [exact Hs|]. split.
    + rewrite (decode_v1_of _ _ _ Hs). now rewrite re_sub_join_layout.
    + apply remove_spaces_layout. eapply Forall_impl; [|exact Hsym].
      apply symbolb_no_space.
  - assert (Hsym : Forall (fun s => symbolb s = true) strs)
      by (eapply int_to_str_symbols; [apply all_tokens_symbols | exact Hs]).
    split; [exact Hs|]. split.
    + rewrite (decode_v2_of _ _ _ Hs). now rewrite re_sub_join_layout.
    + apply remove_spaces_layout. eapply Forall_impl; [|exact Hsym].
      apply symbolb_no_space.
Qed.

Lemma decode_layout_witness :
  Forall (fun i =>
    dict_mem Nat.eqb (int_to_str (init (vocab_v2 "tea, please"))) i = true)
    [2; 0; 1] /\
  exists strs,
    Forall2 (fun i s =>
      dict_get Nat.eqb (int_to_str (init (vocab_v2 "tea, please"))) i = Some s)
      [2; 0; 1] strs /\
    SimpleTokenizerV2.decode (init (vocab_v2 "tea, please")) [2; 0; 1]
      = Ok (layout sub_class_v2 strs) /\
    remove_spaces (layout sub_class_v2 strs) = concat_all strs.
Proof.
  assert (H : Forall (fun i =>
    dict_mem Nat.eqb (int_to_str (init (vocab_v2 "tea, please"))) i = true)
    [2; 0; 1]) by (vm_compute; repeat constructor).
  split; [exact H|].
  exact (proj2 (decode_layout "tea, please" [2; 0; 1]) H).
Defined.

Example decode_layout_run :
  SimpleTokenizerV2.decode (init (vocab_v2 "tea, please")) [2; 0; 1]
  = Ok "tea, please".
Proof. reflexivity. Qed.

(** ** The pre-tokenizer *)

Lemma concat_all_flush p rest :
  concat_all (flush p ++ rest) = (p ++ concat_all rest)%string.
Proof. unfold flush. now destruct p. Qed.

Lemma preprocess_concat text :
  concat_all (preprocess text) = remove_spaces text.
Proof.
  apply (preprocess_ind (fun text l => concat_all l = remove_spaces text)).
  - reflexivity.
  - intros c r Hc IH. cbn [concat_all fold_right remove_spaces append].
    rewrite (class_not_space _ Hc). f_equal. exact IH.
  - intros r IH. cbn [concat_all fold_right remove_spaces append].
    change (isspace "-") with false. cbn iota. do 2 f_equal. exact IH.
  - intros c r Hc IH. cbn [remove_spaces]. now rewrite Hc.
  - intros c r p rest Hc _ _ IH. rewrite concat_all_flush in IH.
    cbn [concat_all fold_right remove_spaces append].
    unfold word_char in Hc. apply andb_true_iff in Hc as [_ Hc].
    apply negb_true_iff in Hc. rewrite Hc. f_equal. exact IH.
Qed.

Lemma plainb_chars w c :
  plainb w = true -> In c (chars w) -> in_class split_class c = false.
Proof.
  induction w as [|x w IH]; [easy|]. cbn [plainb chars list_ascii_of_string].
  intros H. apply andb_true_iff in H as [H Hw].
  apply andb_true_iff in H as [Hx _].
  intros [->|Hin]; [|now apply IH].
  unfold word_char in Hx. apply andb_true_iff in Hx as [Hx _].
  now apply negb_true_iff in Hx.
Qed.

Lemma symbolb_class_char t c :
  symbolb t = true -> In c (chars t) -> in_class split_class c = true ->
  t = String c EmptyString.
Proof.
  unfold symbolb. intros H Hin Hc.
  apply orb_true_iff in H as [H|H]; [apply orb_true_iff in H as [H|H]|].
  - apply andb_true_iff in H as [_ H].
    rewrite (plainb_chars t c H Hin) in Hc. discriminate.
  - destruct t as [|x [|]]; try discriminate.
    destruct Hin as [->|[]]. reflexivity.
  - apply String.eqb_eq in H. subst t.
    destruct Hin as [<-|[<-|[]]]; discriminate.
Qed.

Lemma count_occ_flush p rest t :
  p <> t -> count_occ string_dec (flush p ++ rest) t = count_occ string_dec rest t.
Proof.
  intros H. unfold flush. destruct (nonempty p); [|reflexivity].
  cbn [app]. now apply count_occ_cons_neq.
Qed.

Lemma preprocess_count_class text c :
  in_class split_class c = true ->
  count_occ string_dec (preprocess text) (String c EmptyString)
  = count_occ ascii_dec (chars text) c.
Proof.
  intros Hc.
  apply (preprocess_ind (fun text l =>
    count_occ string_dec l (String c EmptyString)
    = count_occ ascii_dec (chars text) c)).
  - reflexivity.
  - intros x r _ IH. cbn [chars list_ascii_of_string].
    destruct (ascii_dec x c) as [->|Hne].
    + rewrite !count_occ_cons_eq by reflexivity. now f_equal.
    + rewrite !count_occ_cons_neq by congruence. exact IH.
  - intros r IH. cbn [chars list_ascii_of_string].
    assert (Hd : "-"%char <> c) by (intros <-; discriminate Hc).
    rewrite !count_occ_cons_neq by congruence. exact IH.
  - intros x r Hx IH. cbn [chars list_ascii_of_string].
    rewrite count_occ_cons_neq; [exact IH|].
    intros ->. apply class_not_space in Hc. congruence.
  - intros x r p rest Hx Hp _ IH. cbn [chars list_ascii_of_string].
    assert (Hxc : x <> c).
    { intros ->. unfold word_char in Hx. rewrite Hc in Hx. discriminate. }
    rewrite !count_occ_cons_neq by congruence.
    rewrite count_occ_flush in IH; [exact IH|].
    intros ->. cbn [plainb] in Hp.
    apply andb_true_iff in Hp as [_ Hp]. apply andb_true_iff in Hp as [Hp _].
    apply andb_true_iff in Hp as [Hp _].
    unfold word_char in Hp. rewrite Hc in Hp. discriminate.
Qed.

Lemma concat_all_nil l :
  Forall (fun t => nonempty t = true) l -> concat_all l = EmptyString -> l = [].
Proof.
  destruct l as [|t l]; [easy|]. intros H.
  inversion H as [|? ? Ht _]; subst.
  destruct t; [discriminate|]. cbn. discriminate.
Qed.

(** C6, on the code: the sequence of symbols is empty for the empty text
    and for a text of whitespace only. *)
Lemma no_symbol_in_blank_text :
  preprocess EmptyString = [] /\ preprocess "   " = [].
Proof. split; reflexivity. Qed.

(** C6, as the code has it.  The pre-tokenizer is a function of the text
    alone.  The symbols it emits, put end to end in order, are the text
    without its whitespace; no symbol is empty and none holds a whitespace
    character; a character of the splitting class is always a symbol of its
    own, as many times as it occurs in the text; and the sequence is empty
    exactly when the text is empty or all whitespace. *)
Theorem pretokenizer_symbols (text : string) :
  concat_all (preprocess text) = remove_spaces text /\
  Forall (fun t => nonempty t = true /\ no_space t = true) (preprocess text) /\
  (forall t c, In t (preprocess text) -> In c (chars t) ->
     in_class split_class c = true -> t = String c EmptyString) /\
  (forall c, in_class split_class c = true ->
     count_occ string_dec (preprocess text) (String c EmptyString)
     = count_occ ascii_dec (chars text) c) /\
  (preprocess text = [] <-> remove_spaces text = EmptyString).
Proof.
  pose proof (preprocess_symbols text) as Hsym.
  split; [apply preprocess_concat|].
  split; [eapply Forall_impl; [|exact Hsym]; intros t Ht; split;
          [now apply symbolb_nonempty | now apply symbolb_no_space]|].
  split; [intros t c Ht; apply symbolb_class_char;
          now apply (proj1 (Forall_forall _ _) Hsym)|].
  split; [intros c; apply preprocess_count_class|].
  rewrite <- preprocess_concat. split; [now intros ->|].
  apply concat_all_nil. eapply Forall_impl; [|exact Hsym].
  apply symbolb_nonempty.
Qed.

Lemma pretokenizer_symbols_witness :
  In "," (preprocess "tea, please") /\
  In ","%char (chars ",") /\
  in_class split_class "," = true /\
  count_occ string_dec (preprocess "tea, please") "," = 1.
Proof.
  destruct (pretokenizer_symbols "tea, please") as (_ & _ & _ & H & _).
  split; [right; now left|]. split; [now left|]. split; [reflexivity|].
  rewrite (H ","%char eq_refl). reflexivity.
Defined.

(** C7. The vocabulary does not depend on the order in which the set of
    corpus symbols is iterated: any two iteration orders of
    [set(preprocessed)] give the same [all_words], the same [all_tokens] and
    the same symbol-to-ID dictionaries, those of [vocab_v1] and
    [vocab_v2]. *)
Theorem vocabulary_deterministic (raw_text : string) (iter1 iter2 : list string) :
  set_iteration (preprocess raw_text) iter1 ->
  set_iteration (preprocess raw_text) iter2 ->
  vocab_of (all_words_from iter1) = vocab_of (all_words_from iter2) /\
  vocab_of (all_tokens_from iter1) = vocab_of (all_tokens_from iter2) /\
  vocab_of (all_words_from iter1) = vocab_v1 raw_text /\
  vocab_of (all_tokens_from iter1) = vocab_v2 raw_text.
Proof.
  intros H1 H2.
  pose proof (set_of_iteration (preprocess raw_text)) as H0.
  unfold vocab_v1, vocab_v2, all_words, all_tokens,
    all_words_from, all_tokens_from.
  rewrite (sorted_permutation iter1 iter2)
    by (eapply set_iteration_perm; eassumption).
  rewrite (sorted_permutation iter2 (set_of (preprocess raw_text)))
    by (eapply set_iteration_perm; eassumption).
  repeat split.
Qed.

Lemma vocabulary_deterministic_witness :
  set_iteration (preprocess "b a b") ["b"; "a"] /\
  set_iteration (preprocess "b a b") ["a"; "b"] /\
  vocab_of (all_tokens_from ["b"; "a"]) = vocab_of (all_tokens_from ["a"; "b"]).
Proof.
  assert (H1 : set_iteration (preprocess "b a b") ["b"; "a"]).
  { split.
    - repeat constructor; cbn; intuition discriminate.
    - intros x. cbn. tauto. }
  assert (H2 : set_iteration (preprocess "b a b") ["a"; "b"]).
  { split.
    - repeat constructor; cbn; intuition discriminate.
    - intros x. cbn. tauto. }
  split; [exact H1|]. split; [exact H2|].
  exact (proj1 (proj2 (vocabulary_deterministic "b a b" _ _ H1 H2))).
Defined.

(** ** The IDs of the vocabulary *)

Lemma all_words_NoDup raw_text : NoDup (all_words raw_text).
Proof. apply sorted_NoDup, NoDup_nodup. Qed.

Lemma all_words_increasing raw_text : StronglySorted slt (all_words raw_text).
Proof.
  apply sle_NoDup_slt; [apply sorted_sorted | apply all_words_NoDup].
Qed.

Lemma StronglySorted_nth l : forall i j a b,
  StronglySorted slt l -> i < j ->
  nth_error l i = Some a -> nth_error l j = Some b -> slt a b.
Proof.
  induction l as [|x l IH]; intros i j a b Hs Hij Ha Hb.
  - now destruct i.
  - inversion Hs as [|? ? Hl Hx]; subst.
    destruct j as [|j]; [lia|]. cbn in Hb.
    destruct i as [|i].
    + cbn in Ha. inversion Ha; subst.
      rewrite Forall_forall in Hx. apply Hx. eapply nth_error_In. exact Hb.
    + cbn in Ha. apply (IH i j); try assumption. lia.
Qed.

(** C5, on the code: when the corpus holds the literal text of a special
    token as a symbol, that symbol does not get the ID of its place in the
    sorted order; here the first symbol in sorted order gets the largest ID
    and ID 0 is given to no symbol. *)
Lemma special_token_in_corpus_breaks_order :
  nth_error (all_words "<|unk|> a") 0 = Some unk /\
  all_tokens "<|unk|> a" = [unk; "a"; endoftext; unk] /\
  dict_get String.eqb (vocab_v2 "<|unk|> a") unk = Some 3 /\
  dict_get String.eqb (vocab_v2 "<|unk|> a") "a" = Some 1 /\
  dict_get Nat.eqb (int_to_str (init (vocab_v2 "<|unk|> a"))) 0 = None.
Proof. repeat split; reflexivity. Qed.

(** C5, as the code has it.  The distinct symbols of the corpus are listed
    in strictly increasing order of their code points ([all_words]).  In
    the first vocabulary the symbol at place [i] of that list has ID [i], so
    IDs start at 0 and follow the sorted order.  In the second vocabulary
    [<|endoftext|>] has ID [n] and [<|unk|>] has ID [n + 1], [n] being the
    number of distinct corpus symbols, and no ID is larger; a corpus symbol
    at place [i] has ID [i] unless it is the literal text of one of the two
    special tokens. *)
Theorem vocabulary_ids (raw_text : string) :
  StronglySorted slt (all_words raw_text) /\
  (forall s, In s (all_words raw_text) <-> In s (preprocess raw_text)) /\
  (forall i s, nth_error (all_words raw_text) i = Some s ->
     dict_get String.eqb (vocab_v1 raw_text) s = Some i) /\
  (forall i j a b,
     dict_get String.eqb (vocab_v1 raw_text) a = Some i ->
     dict_get String.eqb (vocab_v1 raw_text) b = Some j ->
     (i < j <-> slt a b)) /\
  dict_get String.eqb (vocab_v2 raw_text) endoftext
    = Some (List.length (all_words raw_text)) /\
  dict_get String.eqb (vocab_v2 raw_text) unk
    = Some (List.length (all_words raw_text) + 1) /\
  (forall i s, nth_error (all_words raw_text) i = Some s ->
     s <> endoftext -> s <> unk ->
     dict_get String.eqb (vocab_v2 raw_text) s = Some i) /\
  (forall s i, dict_get String.eqb (vocab_v2 raw_text) s = Some i ->
     i <= List.length (all_words raw_text) + 1).
Proof.
  pose proof (all_words_increasing raw_text) as Hinc.
  assert (Hv1 : forall i s, nth_error (all_words raw_text) i = Some s ->
            dict_get String.eqb (vocab_v1 raw_text) s = Some i).
  { intros i s H. apply vocab_get_NoDup; [apply all_words_NoDup | exact H]. }
  split; [exact Hinc|]. split; [apply all_words_In|].
  split; [exact Hv1|]. split; [|split; [apply vocab_v2_endoftext|
    split; [apply vocab_v2_unk|split]]].
  - intros i j a b Ha Hb. apply vocab_get_nth in Ha, Hb. split.
    + intros Hij. now apply (StronglySorted_nth _ i j a b Hinc).
    + intros Hab. destruct (Nat.lt_trichotomy i j) as [H|[H|H]]; [exact H| |].
      * subst j. rewrite Ha in Hb. inversion Hb; subst.
        now apply slt_irrefl in Hab.
      * pose proof (StronglySorted_nth _ j i b a Hinc H Hb Ha) as Hba.
        exfalso. apply (slt_irrefl a). now apply (slt_trans a b a).
  - intros i s H H1 H2. unfold vocab_v2, all_tokens.
    rewrite all_tokens_from_get_other by assumption. now apply Hv1.
  - intros s i H. apply vocab_get_nth in H.
    assert (Hlt : i < List.length (all_tokens raw_text))
      by (apply nth_error_Some; congruence).
    unfold all_tokens, all_tokens_from in Hlt.
    rewrite length_app in Hlt. cbn [List.length] in Hlt.
    unfold all_words, all_words_from. lia.
Qed.

Lemma vocabulary_ids_witness :
  nth_error (all_words "tea, please") 2 = Some "tea" /\
  "tea" <> endoftext /\ "tea" <> unk /\
  dict_get String.eqb (vocab_v2 "tea, please") "tea" = Some 2.
Proof.
  destruct (vocabulary_ids "tea, please") as (_ & _ & _ & _ & _ & _ & H & _).
  split; [reflexivity|]. split; [discriminate|]. split; [discriminate|].
  apply (H 2 "tea"); [reflexivity | discriminate | discriminate].
Defined.

(** ** Facts on the trainer *)

Lemma pair_eqb_eq p q : BPE.pair_eqb p q = true <-> p = q.
Proof.
  destruct p as [a b], q as [c d]. unfold BPE.pair_eqb. cbn [fst snd].
  rewrite andb_true_iff, !String.eqb_eq. split.
  - now intros [-> ->].
  - intros H. now inversion H.
Qed.

Lemma merge_seq_cons2 p x y rest :
  BPE.merge_seq p (x :: y :: rest)
  = if BPE.pair_eqb (x, y) p then BPE.merged p :: BPE.merge_seq p rest
    else x :: BPE.merge_seq p (y :: rest).
Proof. reflexivity. Qed.

Lemma count_pair_cons2 p x y rest :
  BPE.count_pair p (x :: y :: rest)
  = (if BPE.pair_eqb (x, y) p then 1 else 0) + BPE.count_pair p (y :: rest).
Proof. reflexivity. Qed.

(** A merge never lengthens a sequence, and shortens it when the pair
    occurs in it. *)
Lemma merge_seq_length p : forall n seq,
  List.length seq <= n ->
  List.length (BPE.merge_seq p seq) <= List.length seq /\
  (1 <= BPE.count_pair p seq ->
   List.length (BPE.merge_seq p seq) < List.length seq).
Proof.
  induction n as [|n IH]; intros seq Hn.
  - destruct seq; [|cbn in Hn; lia]. cbn. split; lia.
  - destruct seq as [|x [|y rest']].
    + cbn. split; lia.
    + cbn. split; lia.
    + rewrite merge_seq_cons2, count_pair_cons2.
      cbn [List.length] in Hn.
      destruct (BPE.pair_eqb (x, y) p).
      * destruct (IH rest') as [H1 _]; [lia|].
        cbn [List.length]. split; lia.
      * destruct (IH (y :: rest')) as [H1 H2]; [cbn [List.length]; lia|].
        cbn [List.length] in *. split; [lia|]. intros H.
        rewrite Nat.add_0_l in H. specialize (H2 H). lia.
Qed.

Lemma total_symbols_cons seq corpus :
  BPE.total_symbols (seq :: corpus)
  = List.length seq + BPE.total_symbols corpus.
Proof. reflexivity. Qed.

Lemma frequency_cons p seq corpus :
  BPE.frequency p (seq :: corpus)
  = BPE.count_pair p seq + BPE.frequency p corpus.
Proof. reflexivity. Qed.

Lemma merge_total_le p corpus :
  BPE.total_symbols (map (BPE.merge_seq p) corpus) <= BPE.total_symbols corpus.
Proof.
  induction corpus as [|seq corpus IH]; [easy|].
  cbn [map]. rewrite !total_symbols_cons.
  destruct (merge_seq_length p (List.length seq) seq) as [H _]; lia.
Qed.

Lemma merge_total_lt p corpus :
  1 <= BPE.frequency p corpus ->
  BPE.total_symbols (map (BPE.merge_seq p) corpus) < BPE.total_symbols corpus.
Proof.
  induction corpus as [|seq corpus IH]; [cbn; lia|].
  cbn [map]. rewrite !total_symbols_cons, frequency_cons. intros H.
  destruct (merge_seq_length p (List.length seq) seq) as [H1 H2]; [lia|].
  pose proof (merge_total_le p corpus) as H3.
  destruct (Nat.eq_dec (BPE.count_pair p seq) 0) as [E|E].
  - rewrite E in H. specialize (IH H). lia.
  - assert (H4 : 1 <= BPE.count_pair p seq) by lia. specialize (H2 H4). lia.
Qed.

Lemma count_pair_adjacent p seq :
  1 <= BPE.count_pair p seq -> In p (BPE.adjacent_pairs seq).
Proof.
  induction seq as [|x rest IH]; cbn [BPE.count_pair]; [lia|].
  destruct rest as [|y rest'].
  - cbn. lia.
  - change (BPE.adjacent_pairs (x :: y :: rest'))
      with ((x, y) :: BPE.adjacent_pairs (y :: rest')).
    destruct (BPE.pair_eqb (x, y) p) eqn:E.
    + intros _. left. now apply pair_eqb_eq.
    + intros H. right. apply IH. rewrite Nat.add_0_l in H. exact H.
Qed.

Lemma frequency_candidates p corpus :
  1 <= BPE.frequency p corpus -> In p (BPE.candidates corpus).
Proof.
  unfold BPE.candidates.
  induction corpus as [|seq corpus IH]; [cbn; lia|].
  rewrite frequency_cons. cbn [map List.concat].
  intros H. apply in_app_iff.
  destruct (Nat.eq_dec (BPE.count_pair p seq) 0) as [E|E].
  - right. apply IH. lia.
  - left. apply count_pair_adjacent. lia.
Qed.

Lemma better_frequency corpus p q :
  BPE.better corpus p q = true ->
  BPE.frequency q corpus <= BPE.frequency p corpus.
Proof.
  unfold BPE.better. intros H. apply orb_true_iff in H as [H|H].
  - apply Nat.ltb_lt in H. lia.
  - apply andb_true_iff in H as [H _]. apply Nat.eqb_eq in H. lia.
Qed.

(** The selected candidate is one of maximal frequency. *)
Lemma best_max corpus cands : forall acc,
  (forall q, acc = Some q -> True) ->
  match fold_left (fun acc p =>
          match acc with
          | None => Some p
          | Some q => if BPE.better corpus p q then Some p else Some q
          end) cands acc with
  | Some b =>
      (forall q, acc = Some q ->
         BPE.frequency q corpus <= BPE.frequency b corpus) /\
      (forall p, In p cands ->
         BPE.frequency p corpus <= BPE.frequency b corpus)
  | None => acc = None /\ cands = []
  end.
Proof.
  induction cands as [|c cands IH]; intros acc _; cbn [fold_left].
  - destruct acc as [q|]; [|easy]. split; [|easy].
    intros q' E. inversion E. lia.
  - destruct acc as [q|].
    + destruct (BPE.better corpus c q) eqn:E.
      * specialize (IH (Some c) (fun _ _ => I)).
        destruct (fold_left _ cands (Some c)) as [b|]; [|now destruct IH].
        destruct IH as [H1 H2]. specialize (H1 c eq_refl).
        apply better_frequency in E. split.
        -- intros q' Eq. inversion Eq; subst. lia.
        -- intros p [->|Hp]; [exact H1 | now apply H2].
      * specialize (IH (Some q) (fun _ _ => I)).
        destruct (fold_left _ cands (Some q)) as [b|]; [|now destruct IH].
        destruct IH as [H1 H2]. specialize (H1 q eq_refl).
        assert (Hc : BPE.frequency c corpus <= BPE.frequency q corpus).
        { unfold BPE.better in E. apply orb_false_iff in E as [E _].
          apply Nat.ltb_ge in E. exact E. }
        split.
        -- intros q' Eq. inversion Eq; subst. exact H1.
        -- intros p [->|Hp]; [lia | now apply H2].
    + specialize (IH (Some c) (fun _ _ => I)).
      destruct (fold_left _ cands (Some c)) as [b|]; [|now destruct IH].
      destruct IH as [H1 H2]. specialize (H1 c eq_refl). split.
      * discriminate.
      * intros p [->|Hp]; [exact H1 | now apply H2].
Qed.

Lemma select_pair_Some corpus p :
  BPE.select_pair corpus = Some p ->
  2 <= BPE.frequency p corpus /\
  forall q, BPE.frequency q corpus <= BPE.frequency p corpus.
Proof.
  unfold BPE.select_pair, BPE.best.
  pose proof (best_max corpus (BPE.candidates corpus) None (fun _ _ => I)) as H.
  destruct (fold_left _ (BPE.candidates corpus) None) as [b|]; [|discriminate].
  destruct (2 <=? BPE.frequency b corpus)%nat eqn:E; [|discriminate].
  intros Eb. inversion Eb; subst. apply Nat.leb_le in E. split; [exact E|].
  intros q. destruct (Nat.eq_dec (BPE.frequency q corpus) 0) as [Z|Z]; [lia|].
  apply (proj2 H). apply frequency_candidates. lia.
Qed.

Lemma select_pair_None corpus :
  BPE.select_pair corpus = None -> forall q, BPE.frequency q corpus < 2.
Proof.
  unfold BPE.select_pair, BPE.best.
  pose proof (best_max corpus (BPE.candidates corpus) None (fun _ _ => I)) as H.
  destruct (fold_left _ (BPE.candidates corpus) None) as [b|].
  - destruct (2 <=? BPE.frequency b corpus)%nat eqn:E; [discriminate|].
    intros _ q. apply Nat.leb_gt in E.
    destruct (Nat.eq_dec (BPE.frequency q corpus) 0) as [Z|Z]; [lia|].
    assert (Hq : BPE.frequency q corpus <= BPE.frequency b corpus)
      by (apply (proj2 H), frequency_candidates; lia).
    lia.
  - intros _ q. destruct H as [_ H].
    destruct (Nat.eq_dec (BPE.frequency q corpus) 0) as [Z|Z]; [lia|].
    assert (Hq : In q (BPE.candidates corpus))
      by (apply frequency_candidates; lia).
    rewrite H in Hq. destruct Hq.
Qed.

Lemma continue_Some target st p :
  BPE.continue target st = Some p ->
  List.length (BPE.vocab st) < target /\
  2 <= BPE.frequency p (BPE.seqs st) /\
  (forall q, BPE.frequency q (BPE.seqs st) <= BPE.frequency p (BPE.seqs st)) /\
  BPE.total_symbols (BPE.seqs (BPE.step p st)) < BPE.total_symbols (BPE.seqs st).
Proof.
  unfold BPE.continue.
  destruct (target <=? List.length (BPE.vocab st))%nat eqn:E; [discriminate|].
  apply Nat.leb_gt in E. intros H.
  apply select_pair_Some in H as [H1 H2].
  repeat split; try assumption.
  cbn [BPE.step BPE.seqs]. apply merge_total_lt. lia.
Qed.

Lemma continue_None target st :
  BPE.continue target st = None ->
  target <= List.length (BPE.vocab st) \/
  forall q, BPE.frequency q (BPE.seqs st) < 2.
Proof.
  unfold BPE.continue.
  destruct (target <=? List.length (BPE.vocab st))%nat eqn:E.
  - left. now apply Nat.leb_le.
  - right. now apply select_pair_None.
Qed.

Lemma loop_enough target : forall fuel st,
  BPE.total_symbols (BPE.seqs st) <= fuel ->
  exists st',
    BPE.loop fuel target st = Some st' /\
    BPE.continue target st' = None /\
    List.length (BPE.merges st')
      <= List.length (BPE.merges st) + BPE.total_symbols (BPE.seqs st).
Proof.
  induction fuel as [|fuel IH]; intros st Hf.
  - cbn [BPE.loop]. destruct (BPE.continue target st) as [p|] eqn:E.
    + apply continue_Some in E as (_ & _ & _ & E). lia.
    + exists st. repeat split; [exact E | lia].
  - cbn [BPE.loop]. destruct (BPE.continue target st) as [p|] eqn:E.
    + apply continue_Some in E as (_ & _ & _ & E).
      destruct (IH (BPE.step p st)) as (st' & H1 & H2 & H3); [lia|].
      exists st'. repeat split; try assumption.
      cbn [BPE.step BPE.merges] in H3. rewrite length_app in H3.
      cbn [List.length] in H3. lia.
    + exists st. repeat split; [exact E | lia].
Qed.

Lemma loop_more_fuel target : forall fuel fuel' st st',
  BPE.loop fuel target st = Some st' -> fuel <= fuel' ->
  BPE.loop fuel' target st = Some st'.
Proof.
  induction fuel as [|fuel IH]; intros fuel' st st' H Hle.
  - destruct fuel'; cbn [BPE.loop] in *;
      destruct (BPE.continue target st); congruence.
  - destruct fuel' as [|fuel']; [lia|]. cbn [BPE.loop] in *.
    destruct (BPE.continue target st); [|exact H].
    apply (IH fuel'); [exact H | lia].
Qed.

(** C8.  The trainer of the specification terminates on every corpus and
    every target size.  The merge loop reaches a final state within as many
    iterations as the corpus has symbols, and more fuel does not change that
    state; it goes on only while the vocabulary is below the target size and
    the selected pair, of greatest frequency, occurs at least twice, each
    iteration removing at least one symbol from the corpus; in the final
    state the target size is reached or no adjacent pair occurs twice; the
    number of merge rules is at most the number of symbols of the corpus;
    and [train] never ends cut short. *)
Theorem training_terminates (corpus : list (list string)) (target : nat)
    (special_tokens : list string) :
  exists st,
    BPE.loop (BPE.total_symbols corpus) target (BPE.initial corpus) = Some st /\
    (forall fuel, BPE.total_symbols corpus <= fuel ->
       BPE.loop fuel target (BPE.initial corpus) = Some st) /\
    (forall st0 p, BPE.continue target st0 = Some p ->
       List.length (BPE.vocab st0) < target /\
       2 <= BPE.frequency p (BPE.seqs st0) /\
       (forall q, BPE.frequency q (BPE.seqs st0)
                  <= BPE.frequency p (BPE.seqs st0)) /\
       BPE.total_symbols (BPE.seqs (BPE.step p st0))
         < BPE.total_symbols (BPE.seqs st0)) /\
    BPE.continue target st = None /\
    (target <= List.length (BPE.vocab st) \/
     forall q, BPE.frequency q (BPE.seqs st) < 2) /\
    List.length (BPE.merges st) <= BPE.total_symbols corpus /\
    (BPE.train corpus target special_tokens = BPE.EmptyCorpus \/
     BPE.train corpus target special_tokens
       = BPE.Trained (BPE.vocab st ++ special_tokens) (BPE.merges st)).
Proof.
  destruct (loop_enough target (BPE.total_symbols corpus) (BPE.initial corpus))
    as (st & H1 & H2 & H3); [apply Nat.le_refl|].
  cbn [BPE.initial BPE.seqs BPE.merges List.length] in H3.
  exists st. split; [exact H1|].
  split; [intros fuel Hf; now apply (loop_more_fuel target _ fuel _ _ H1)|].
  split; [apply continue_Some|]. split; [exact H2|].
  split; [now apply continue_None|]. split; [exact H3|].
  unfold BPE.train. destruct (BPE.total_symbols corpus =? 0)%nat; [now left|].
  right. now rewrite H1.
Qed.

Lemma training_terminates_witness :
  BPE.total_symbols [["a"; "b"; "a"; "b"]] <= 9 /\
  exists st,
    BPE.loop 9 5 (BPE.initial [["a"; "b"; "a"; "b"]]) = Some st /\
    List.length (BPE.merges st) <= 4.
Proof.
  destruct (training_terminates [["a"; "b"; "a"; "b"]] 5 [])
    as (st & _ & H & _ & _ & _ & Hm & _).
  assert (Hf : BPE.total_symbols [["a"; "b"; "a"; "b"]] <= 9)
    by (vm_compute; repeat constructor).
  split; [exact Hf|].
  exists st. split; [exact (H 9 Hf) | exact Hm].
Defined.

(* ================================================================== *)
(** * Further properties of the script *)

(** ** The split and the comprehension after it *)

Lemma concat_all_cons_first c l :
  l <> [] -> concat_all (cons_first c l) = String c (concat_all l).
Proof. destruct l; [congruence | reflexivity]. Qed.

Lemma re_split_concat_all text : concat_all (re_split text) = text.
Proof.
  apply (re_split_ind (fun text l => concat_all l = text)).
  - reflexivity.
  - intros c r _ IH. cbn. now rewrite <- IH at 2.
  - intros r IH. cbn. now rewrite <- IH at 2.
  - intros c r _ IH. cbn. now rewrite <- IH at 2.
  - intros c r _ _ IH.
    rewrite concat_all_cons_first by apply re_split_nonnil. now rewrite IH.
Qed.

Lemma alternating_head p q tl :
  alternating (p :: tl) = true -> plainb q = true ->
  alternating (q :: tl) = true.
Proof.
  cbn [alternating]. destruct tl as [|s tl']; [easy|].
  intros H Hq. apply andb_true_iff in H as [H Ht].
  apply andb_true_iff in H as [_ Hs]. now rewrite Hq, Hs, Ht.
Qed.

Lemma re_split_alternating text : alternating (re_split text) = true.
Proof.
  apply (re_split_ind (fun _ l => alternating l = true)).
  - reflexivity.
  - intros c r Hc IH.
    change (plainb EmptyString && separatorb (String c EmptyString)
            && alternating (re_split r) = true).
    unfold separatorb. cbn [is_class_char plainb]. now rewrite Hc, IH.
  - intros r IH.
    change (plainb EmptyString && separatorb "--"
            && alternating (re_split r) = true).
    now rewrite IH.
  - intros c r Hc IH.
    change (plainb EmptyString && separatorb (String c EmptyString)
            && alternating (re_split r) = true).
    unfold separatorb. cbn [is_space_char plainb]. rewrite Hc, IH.
    now rewrite !orb_true_r.
  - intros c r Hw Hd IH.
    destruct (preprocess_word c r Hw Hd) as (p & tl & E & Hp & _).
    rewrite E in *. cbn [cons_first]. now apply (alternating_head p).
Qed.

Lemma alternating_items : forall n l,
  List.length l <= n -> alternating l = true ->
  Forall (fun x => plainb x = true \/ separatorb x = true) l.
Proof.
  induction n as [|n IH]; intros l Hn H.
  - destruct l; [constructor | cbn in Hn; lia].
  - destruct l as [|p [|s tl]]; [constructor| |].
    + cbn in H. constructor; [now left | constructor].
    + cbn [alternating] in H. apply andb_true_iff in H as [H Ht].
      apply andb_true_iff in H as [Hp Hs].
      constructor; [now left|]. constructor; [now right|].
      apply IH; [cbn [List.length] in Hn; lia | exact Ht].
Qed.

Lemma separatorb_strip s :
  separatorb s = true ->
  (is_space_char s = false /\ strip s = s /\ nonempty s = true) \/
  (is_space_char s = true /\ strip s = EmptyString).
Proof.
  unfold separatorb. intros H.
  destruct (is_space_char s) eqn:Hsp.
  - right. split; [reflexivity|].
    destruct s as [|c [|]]; try discriminate. now apply strip_space_char.
  - left. split; [reflexivity|]. rewrite orb_false_r in H.
    assert (Hsym : symbolb s = true).
    { unfold symbolb. apply orb_true_iff in H as [H|H]; rewrite H;
        now rewrite ?orb_true_r. }
    split; [apply strip_no_space; now apply symbolb_no_space|].
    now apply symbolb_nonempty.
Qed.

Lemma plainb_not_space_char p : plainb p = true -> is_space_char p = false.
Proof.
  destruct p as [|c [|]]; try reflexivity. cbn [plainb is_space_char].
  intros H. apply andb_true_iff in H as [H _].
  apply andb_true_iff in H as [H _]. unfold word_char in H.
  apply andb_true_iff in H as [_ H]. now apply negb_true_iff in H.
Qed.

(** What the filter does to an item of the split. *)
Lemma split_item_strip x :
  plainb x = true \/ separatorb x = true ->
  (nonempty (strip x) = true -> strip x = x) /\
  (nonempty (strip x) = false ->
   x = EmptyString \/ is_space_char x = true).
Proof.
  intros [H|H].
  - rewrite (strip_no_space x) by now apply plainb_no_space.
    split; [reflexivity|]. destruct x; [now left | discriminate].
  - destruct (separatorb_strip x H) as [(_ & E & Hne)|(Hs & E)]; rewrite E.
    + split; [reflexivity|]. congruence.
    + split; [discriminate|]. now right.
Qed.

Lemma post_filter l :
  Forall (fun x => plainb x = true \/ separatorb x = true) l ->
  post l = filter (fun item => nonempty (strip item)) l.
Proof.
  induction 1 as [|x l Hx _ IH]; [reflexivity|].
  rewrite post_cons, IH. cbn [filter]. unfold flush.
  destruct (split_item_strip x Hx) as [H1 _].
  destruct (nonempty (strip x)) eqn:E; [|reflexivity].
  now rewrite (H1 eq_refl).
Qed.

Lemma re_split_items text :
  Forall (fun x => plainb x = true \/ separatorb x = true) (re_split text).
Proof.
  apply (alternating_items (List.length (re_split text)));
    [lia | apply re_split_alternating].
Qed.

(** X1. The split with the capturing group loses nothing: its items put
    end to end are the text, and they alternate between a piece in which
    the pattern matches nowhere (possibly empty) and a separator (one
    character of the class, the double hyphen or one whitespace character),
    starting and ending with a piece. *)
Theorem re_split_keeps_text (text : string) :
  concat_all (re_split text) = text /\
  alternating (re_split text) = true.
Proof.
  split; [apply re_split_concat_all | apply re_split_alternating].
Qed.

(** X2. The [strip()] of the comprehension never changes an item it keeps:
    the pre-tokenized symbols are the items of the split, filtered; and an
    item is dropped exactly when it is the empty string or one whitespace
    character. *)
Theorem strip_changes_no_item (text : string) :
  preprocess text = filter (fun item => nonempty (strip item)) (re_split text) /\
  forall item, In item (re_split text) ->
    (nonempty (strip item) = true -> strip item = item) /\
    (nonempty (strip item) = false <->
     item = EmptyString \/ is_space_char item = true).
Proof.
  pose proof (re_split_items text) as H.
  split; [rewrite preprocess_post; now apply post_filter|].
  intros item Hin. rewrite Forall_forall in H.
  destruct (split_item_strip item (H item Hin)) as [H1 H2].
  split; [exact H1|]. split; [exact H2|].
  intros [->|Hs]; [reflexivity|].
  destruct item as [|c [|]]; try discriminate.
  cbn [is_space_char] in Hs. now rewrite strip_space_char.
Qed.

Lemma strip_changes_no_item_witness :
  In "tea" (re_split "tea, please") /\
  nonempty (strip "tea") = true /\
  strip "tea" = "tea".
Proof.
  destruct (strip_changes_no_item "tea, please") as [_ H].
  split; [now left|]. split; [reflexivity|].
  apply (H "tea"); [now left | reflexivity].
Defined.

Lemma basic_class_split c :
  in_class basic_class c = true -> in_class split_class c = true.
Proof.
  destruct c as [[] [] [] [] [] [] [] []]; vm_compute; congruence.
Qed.

Lemma re_split_basic_eq text :
  basic_text text = true -> re_split_basic text = re_split text.
Proof.
  induction text as [|c r IH]; [reflexivity|]. cbn [basic_text].
  intros H. apply andb_true_iff in H as [H Hr].
  apply andb_true_iff in H as [Hc Hd]. apply negb_true_iff in Hd.
  specialize (IH Hr). cbn [re_split_basic]. rewrite IH.
  destruct (in_class basic_class c) eqn:Hb.
  - now rewrite re_split_class by now apply basic_class_split.
  - cbn [orb] in Hc. apply negb_true_iff in Hc.
    destruct (isspace c) eqn:Hs.
    + now rewrite re_split_space.
    + rewrite re_split_word; [reflexivity | | exact Hd].
      unfold word_char. now rewrite Hc, Hs.
Qed.

(** X3. On a text with no punctuation of the full pattern other than comma
    and period, and no double hyphen, the first splitter of the script
    (pattern of comma, period and whitespace, items filtered but not
    stripped) gives exactly the symbols of the pre-tokenizer of the two
    tokenizers. *)
Theorem first_splitter_agrees (text : string) :
  basic_text text = true -> result_of text = preprocess text.
Proof.
  intros H. unfold result_of. rewrite (re_split_basic_eq text H).
  rewrite preprocess_post. symmetry. apply post_filter, re_split_items.
Qed.

Lemma first_splitter_agrees_witness :
  basic_text "Hello, world. This, is a test." = true /\
  result_of "Hello, world. This, is a test."
  = preprocess "Hello, world. This, is a test.".
Proof.
  split; [reflexivity|].
  apply (first_splitter_agrees "Hello, world. This, is a test."). reflexivity.
Defined.

(** The result the script records for its first splitter. *)
Example first_splitter_run :
  result_of "Hello, world. This, is a test."
  = ["Hello"; ","; "world"; "."; "This"; ","; "is"; "a"; "test"; "."].
Proof. reflexivity. Qed.

(** ** Texts put together *)

Lemma cons_first_app c l1 l2 :
  l1 <> [] -> cons_first c (l1 ++ l2) = cons_first c l1 ++ l2.
Proof. destruct l1; [congruence | reflexivity]. Qed.

Lemma post_app l1 l2 : post (l1 ++ l2) = post l1 ++ post l2.
Proof. unfold post. now rewrite filter_app, map_app. Qed.

(** A separator of one character cuts the split in two. *)
Lemma re_split_app_sep a c b :
  sep_start (String c b) = true ->
  re_split (a ++ String c b)
  = re_split a ++ String c EmptyString :: re_split b.
Proof.
  intros Hc.
  assert (E0 : re_split (String c b)
               = EmptyString :: String c EmptyString :: re_split b).
  { cbn [sep_start] in Hc. apply orb_true_iff in Hc as [Hc|Hc];
      [now apply re_split_class | now apply re_split_space]. }
  apply (re_split_ind (fun a l =>
    re_split (a ++ String c b) = l ++ String c EmptyString :: re_split b)).
  - exact E0.
  - intros x r Hx IH. cbn [append]. rewrite re_split_class by assumption.
    now rewrite IH.
  - intros r IH. cbn [append]. now rewrite re_split_dashes, IH.
  - intros x r Hx IH. cbn [append]. rewrite re_split_space by assumption.
    now rewrite IH.
  - intros x r Hx Hd IH. cbn [append]. rewrite re_split_word.
    + rewrite IH. apply cons_first_app, re_split_nonnil.
    + exact Hx.
    + rewrite starts_with_dash_app. destruct r; [|exact Hd].
      cbn [nonempty]. rewrite (sep_start_not_dash _ Hc).
      apply andb_false_r.
Qed.

Lemma preprocess_app_space a c b :
  isspace c = true ->
  preprocess (a ++ String c b) = preprocess a ++ preprocess b.
Proof.
  intros Hc. rewrite !preprocess_post, re_split_app_sep.
  - rewrite post_app, post_cons, strip_space_char by assumption. reflexivity.
  - cbn [sep_start]. rewrite Hc. apply orb_true_r.
Qed.

Lemma preprocess_app_class a c b :
  in_class split_class c = true ->
  preprocess (a ++ String c b)
  = preprocess a ++ String c EmptyString :: preprocess b.
Proof.
  intros Hc. rewrite !preprocess_post, re_split_app_sep.
  - rewrite post_app, post_cons. rewrite strip_no_space; [reflexivity|].
    cbn. now rewrite (class_not_space _ Hc).
  - cbn [sep_start]. now rewrite Hc.
Qed.

(** X4. A whitespace character or a character of the splitting class
    between two texts separates their symbols: the symbols of the whole are
    the symbols of the first text followed by those of the second, with the
    character of the class, if it is one, as a symbol between them. *)
Theorem preprocess_app_separator (a b : string) (c : ascii) :
  (isspace c = true ->
   preprocess (a ++ String c b) = preprocess a ++ preprocess b) /\
  (in_class split_class c = true ->
   preprocess (a ++ String c b)
   = preprocess a ++ String c EmptyString :: preprocess b).
Proof.
  split; [apply preprocess_app_space | apply preprocess_app_class].
Qed.

Lemma preprocess_app_separator_witness :
  isspace " " = true /\
  in_class split_class "," = true /\
  preprocess ("no tea-" ++ String " " "-please")
    = preprocess "no tea-" ++ preprocess "-please" /\
  preprocess ("no tea" ++ String "," "please")
    = preprocess "no tea" ++ "," :: preprocess "please".
Proof.
  split; [reflexivity|]. split; [reflexivity|]. split.
  - apply (proj1 (preprocess_app_separator "no tea-" "-please" " ")).
    reflexivity.
  - apply (proj2 (preprocess_app_separator "no tea" "please" ",")).
    reflexivity.
Defined.

Lemma before_class_nil s : before_class [] s = false.
Proof.
  induction s as [|c s IH]; [reflexivity|]. cbn [before_class].
  now destruct (isspace c).
Qed.

Lemma re_sub_nil s : re_sub [] s = s.
Proof.
  induction s as [|c s IH]; [reflexivity|].
  rewrite re_sub_cons, before_class_nil, andb_false_r. now rewrite IH.
Qed.

Lemma preprocess_join_symbols ts :
  Forall (fun t => symbolb t = true) ts -> preprocess (join " " ts) = ts.
Proof.
  intros H. rewrite <- (re_sub_nil (join " " ts)).
  apply preprocess_re_sub_join; [discriminate | exact H].
Qed.

(** X5. The symbols of a text are stable: each one, pre-tokenized on its
    own, is that one symbol, and the symbols joined with single spaces are
    pre-tokenized to the same symbols again. *)
Theorem preprocess_stable (text : string) :
  Forall (fun t => preprocess t = [t]) (preprocess text) /\
  preprocess (join " " (preprocess text)) = preprocess text.
Proof.
  pose proof (preprocess_symbols text) as H. split.
  - eapply Forall_impl; [|exact H]. apply preprocess_symbol.
  - now apply preprocess_join_symbols.
Qed.

(** ** Failures of [encode] and [decode] *)

Lemma mapM_first_raise {A B} (f : A -> result B) pre x post e :
  Forall (fun y => is_ok (f y) = true) pre -> f x = Raise e ->
  mapM f (pre ++ x :: post) = Raise e.
Proof.
  intros Hpre Hx. induction Hpre as [|y pre Hy _ IH]; cbn [app mapM].
  - now rewrite Hx.
  - destruct (f y); [|discriminate]. cbn [bind]. now rewrite IH.
Qed.

Lemma mapM_is_ok {A B} (f : A -> result B) l :
  is_ok (mapM f l) = true <-> Forall (fun y => is_ok (f y) = true) l.
Proof.
  induction l as [|x l IH]; cbn [mapM].
  - split; [constructor | reflexivity].
  - destruct (f x) as [y|e] eqn:E; cbn [bind].
    + destruct (mapM f l) as [ys|e'] eqn:El; cbn [bind is_ok] in *.
      * split; [|reflexivity]. intros _. constructor; [now rewrite E|].
        now apply IH.
      * split; [discriminate|]. intros H. inversion H; subst.
        now apply IH.
    + cbn [is_ok]. split; [discriminate|]. intros H. inversion H as [|? ? Hx _].
      rewrite E in Hx. discriminate.
Qed.

Lemma known_ids (vocab : dict (K := string) (V := nat)) strs :
  Forall (fun s => dict_mem String.eqb vocab s = true) strs ->
  exists ids,
    Forall2 (fun s i => dict_get String.eqb vocab s = Some i) strs ids.
Proof.
  induction 1 as [|s strs Hs _ [ids IH]]; [exists []; constructor|].
  unfold dict_mem in Hs.
  destruct (dict_get String.eqb vocab s) as [i|] eqn:E; [|discriminate].
  exists (i :: ids). now constructor.
Qed.

(** X6. [SimpleTokenizerV1.encode], for any vocabulary: when every symbol
    of the text is a key it returns the IDs bound to the symbols, in order;
    otherwise it raises the KeyError of the first symbol of the text that
    is not a key. *)
Theorem encode_v1_exact (vocab : dict (K := string) (V := nat))
    (text : string) :
  (Forall (fun s => dict_mem String.eqb vocab s = true) (preprocess text) ->
   exists ids,
     SimpleTokenizerV1.encode (init vocab) text = Ok ids /\
     Forall2 (fun s i => dict_get String.eqb vocab s = Some i)
             (preprocess text) ids) /\
  (forall before s after,
     preprocess text = before ++ s :: after ->
     Forall (fun s => dict_mem String.eqb vocab s = true) before ->
     dict_mem String.eqb vocab s = false ->
     SimpleTokenizerV1.encode (init vocab) text = Raise (KeyError_str s)).
Proof.
  split.
  - intros H. destruct (known_ids vocab _ H) as [ids Hids].
    exists ids. split; [|exact Hids].
    now apply (encode_v1_known vocab (preprocess text)).
  - intros before s after E Hb Hs. unfold SimpleTokenizerV1.encode.
    rewrite E. apply mapM_first_raise.
    + eapply Forall_impl; [|exact Hb]. intros y Hy.
      unfold lookup_str, dict_mem in *. cbn [init str_to_int].
      now destruct (dict_get String.eqb vocab y).
    + unfold lookup_str, dict_mem in *. cbn [init str_to_int].
      now destruct (dict_get String.eqb vocab s).
Qed.

Lemma encode_v1_exact_witness :
  preprocess "the old palace garden" = ["the"] ++ "old" :: ["palace"; "garden"] /\
  Forall (fun s => dict_mem String.eqb (vocab_v1 "the tea") s = true) ["the"] /\
  dict_mem String.eqb (vocab_v1 "the tea") "old" = false /\
  SimpleTokenizerV1.encode (init (vocab_v1 "the tea")) "the old palace garden"
    = Raise (KeyError_str "old").
Proof.
  assert (Hb : Forall
    (fun s => dict_mem String.eqb (vocab_v1 "the tea") s = true) ["the"])
    by (vm_compute; repeat constructor).
  split; [reflexivity|]. split; [exact Hb|]. split; [reflexivity|].
  apply (proj2 (encode_v1_exact (vocab_v1 "the tea") "the old palace garden")
           ["the"] "old" ["palace"; "garden"]);
    [reflexivity | exact Hb | reflexivity].
Defined.

Lemma decode_v1_is_ok tok ids :
  is_ok (SimpleTokenizerV1.decode tok ids)
  = is_ok (mapM (lookup_int tok) ids).
Proof.
  unfold SimpleTokenizerV1.decode. now destruct (mapM (lookup_int tok) ids).
Qed.

Lemma decode_v2_is_ok tok ids :
  is_ok (SimpleTokenizerV2.decode tok ids)
  = is_ok (mapM (lookup_int tok) ids).
Proof.
  unfold SimpleTokenizerV2.decode. now destruct (mapM (lookup_int tok) ids).
Qed.

Lemma lookup_int_is_ok tok i :
  is_ok (lookup_int tok i) = dict_mem Nat.eqb (int_to_str tok) i.
Proof.
  unfold lookup_int, dict_mem. now destruct (dict_get Nat.eqb _ i).
Qed.

Lemma present_is_ok tok ids :
  Forall (fun i => is_ok (lookup_int tok i) = true) ids
  <-> Forall (fun i => dict_mem Nat.eqb (int_to_str tok) i = true) ids.
Proof.
  split; intros H; (eapply Forall_impl; [|exact H]); intros i; cbn beta;
    now rewrite lookup_int_is_ok.
Qed.

(** X7. [decode], in both classes and for any tokenizer, succeeds exactly
    when every ID is a key of [int_to_str]; otherwise it raises the
    KeyError of the first ID of the sequence that is not a key. *)
Theorem decode_missing_id (tok : tokenizer) (ids : list nat) :
  (is_ok (SimpleTokenizerV1.decode tok ids) = true <->
   Forall (fun i => dict_mem Nat.eqb (int_to_str tok) i = true) ids) /\
  (is_ok (SimpleTokenizerV2.decode tok ids) = true <->
   Forall (fun i => dict_mem Nat.eqb (int_to_str tok) i = true) ids) /\
  (forall before i after,
     ids = before ++ i :: after ->
     Forall (fun i => dict_mem Nat.eqb (int_to_str tok) i = true) before ->
     dict_mem Nat.eqb (int_to_str tok) i = false ->
     SimpleTokenizerV1.decode tok ids = Raise (KeyError_int i) /\
     SimpleTokenizerV2.decode tok ids = Raise (KeyError_int i)).
Proof.
  split; [rewrite decode_v1_is_ok, mapM_is_ok; apply present_is_ok|].
  split; [rewrite decode_v2_is_ok, mapM_is_ok; apply present_is_ok|].
  intros before i after E Hb Hi.
  assert (R : mapM (lookup_int tok) ids = Raise (KeyError_int i)).
  { rewrite E. apply mapM_first_raise; [now apply present_is_ok|].
    unfold lookup_int, dict_mem in *.
    now destruct (dict_get Nat.eqb (int_to_str tok) i). }
  unfold SimpleTokenizerV1.decode, SimpleTokenizerV2.decode.
  now rewrite R.
Qed.

Lemma decode_missing_id_witness :
  [1; 7; 0; 9] = [1] ++ 7 :: [0; 9] /\
  Forall (fun i =>
    dict_mem Nat.eqb (int_to_str (init (vocab_v2 "the tea"))) i = true) [1] /\
  dict_mem Nat.eqb (int_to_str (init (vocab_v2 "the tea"))) 7 = false /\
  SimpleTokenizerV2.decode (init (vocab_v2 "the tea")) [1; 7; 0; 9]
    = Raise (KeyError_int 7).
Proof.
  assert (Hb : Forall (fun i =>
    dict_mem Nat.eqb (int_to_str (init (vocab_v2 "the tea"))) i = true) [1])
    by (vm_compute; repeat constructor).
  split; [reflexivity|]. split; [exact Hb|]. split; [reflexivity|].
  apply (proj2 (proj2 (decode_missing_id (init (vocab_v2 "the tea"))
                         [1; 7; 0; 9])) [1] 7 [0; 9]);
    [reflexivity | exact Hb | reflexivity].
Defined.

(** ** Encoding what was decoded *)

Lemma decoded_symbols_reencode cls tokens ids strs :
  (forall c, in_class cls c = true -> in_class split_class c = true) ->
  (forall s, In s tokens -> symbolb s = true) ->
  Forall2 (fun i s =>
    dict_get Nat.eqb (int_to_str (init (vocab_of tokens))) i = Some s)
    ids strs ->
  preprocess (re_sub cls (join " " strs)) = strs /\
  Forall2 (fun s i => dict_get String.eqb (vocab_of tokens) s = Some i)
          strs ids.
Proof.
  intros Hcls Ht H. split.
  - apply preprocess_re_sub_join; [exact Hcls|].
    now apply (int_to_str_symbols tokens ids).
  - apply Forall2_flip. eapply Forall2_impl; [|exact H].
    intros i s. apply init_int_to_str_sound, vocab_NoDup_keys.
Qed.

(** X8. For [SimpleTokenizerV1] built from any corpus, encoding undoes
    decoding: if every ID of [ids] is a key of [int_to_str], then
    [decode ids] succeeds and [encode (decode ids)] is [ids]. *)
Theorem encode_decode_v1 (raw_text : string) (ids : list nat) :
  Forall (fun i =>
    dict_mem Nat.eqb (int_to_str (init (vocab_v1 raw_text))) i = true) ids ->
  exists text,
    SimpleTokenizerV1.decode (init (vocab_v1 raw_text)) ids = Ok text /\
    SimpleTokenizerV1.encode (init (vocab_v1 raw_text)) text = Ok ids.
Proof.
  intros H. destruct (present_mapM _ _ H) as [strs Hs].
  exists (re_sub sub_class_v1 (join " " strs)).
  split; [now apply decode_v1_of|].
  destruct (decoded_symbols_reencode sub_class_v1 (all_words raw_text) ids strs
              sub_class_v1_split (all_words_symbols raw_text) Hs) as [E Hv].
  now apply (encode_v1_known _ strs).
Qed.

Lemma encode_decode_v1_witness :
  Forall (fun i =>
    dict_mem Nat.eqb (int_to_str (init (vocab_v1 "is it: tea; or not"))) i
    = true) [3; 2; 0; 6; 1; 5; 4] /\
  exists text,
    SimpleTokenizerV1.decode (init (vocab_v1 "is it: tea; or not"))
      [3; 2; 0; 6; 1; 5; 4] = Ok text /\
    SimpleTokenizerV1.encode (init (vocab_v1 "is it: tea; or not")) text
      = Ok [3; 2; 0; 6; 1; 5; 4].
Proof.
  assert (H : Forall (fun i =>
    dict_mem Nat.eqb (int_to_str (init (vocab_v1 "is it: tea; or not"))) i
    = true) [3; 2; 0; 6; 1; 5; 4]) by (vm_compute; repeat constructor).
  split; [exact H|].
  exact (encode_decode_v1 "is it: tea; or not" [3; 2; 0; 6; 1; 5; 4] H).
Defined.

(** The first decoder leaves the space in front of a colon or semicolon. *)
Example encode_decode_v1_run :
  SimpleTokenizerV1.decode (init (vocab_v1 "is it: tea; or not"))
    [3; 2; 0; 6; 1; 5; 4] = Ok "it is : tea ; or not".
Proof. reflexivity. Qed.

(** ** Decoding what was encoded *)

Lemma known_or_unk_mem raw_text item :
  dict_mem String.eqb (vocab_v2 raw_text)
    (known_or_unk (vocab_v2 raw_text) item) = true.
Proof.
  unfold known_or_unk.
  destruct (dict_mem String.eqb (vocab_v2 raw_text) item) eqn:E;
    [exact E | apply vocab_v2_mem_unk].
Qed.

(** What [SimpleTokenizerV2] does to a text, in full. *)
Lemma encode_decode_encode_v2 (raw_text text : string) :
  exists ids,
    SimpleTokenizerV2.encode (init (vocab_v2 raw_text)) text = Ok ids /\
    SimpleTokenizerV2.decode (init (vocab_v2 raw_text)) ids
      = Ok (layout sub_class_v2
              (map (known_or_unk (vocab_v2 raw_text)) (preprocess text))) /\
    SimpleTokenizerV2.encode (init (vocab_v2 raw_text))
      (layout sub_class_v2
         (map (known_or_unk (vocab_v2 raw_text)) (preprocess text)))
      = Ok ids.
Proof.
  set (strs := map (known_or_unk (vocab_v2 raw_text)) (preprocess text)).
  assert (Hk : Forall
    (fun s => dict_mem String.eqb (vocab_v2 raw_text) s = true) strs).
  { apply Forall_forall. intros s Hs. apply in_map_iff in Hs as [x [<- _]].
    apply known_or_unk_mem. }
  assert (Hsym : Forall (fun s => symbolb s = true) strs).
  { eapply Forall_impl; [|exact Hk]. intros s Hs.
    apply (all_tokens_symbols raw_text). now apply vocab_mem. }
  destruct (known_symbols_ids _ _ Hk) as (ids & H1 & H2).
  exists ids. split; [|split].
  - change (mapM (lookup_str (init (vocab_v2 raw_text))) strs = Ok ids).
    apply mapM_Forall2.
    eapply Forall2_impl; [|exact H1]. intros s i Hs. now apply lookup_str_Ok.
  - unfold vocab_v2 at 1. rewrite (decode_v2_of _ _ _ H2). f_equal.
    now apply re_sub_join_layout.
  - apply (encode_v2_known _ strs); [|exact H1].
    rewrite <- (re_sub_join_layout sub_class_v2 _ Hsym).
    apply preprocess_re_sub_join; [exact sub_class_v2_split | exact Hsym].
Qed.

(** X9. With [SimpleTokenizerV2] built from any corpus, [decode (encode
    text)] succeeds for every text, and it is the layout of the symbols of
    the text in which every symbol missing from the vocabulary is replaced
    by the literal text of the unknown token. *)
Theorem decode_encode_v2 (raw_text text : string) :
  exists ids,
    SimpleTokenizerV2.encode (init (vocab_v2 raw_text)) text = Ok ids /\
    SimpleTokenizerV2.decode (init (vocab_v2 raw_text)) ids
      = Ok (layout sub_class_v2
              (map (known_or_unk (vocab_v2 raw_text)) (preprocess text))).
Proof.
  destruct (encode_decode_encode_v2 raw_text text) as (ids & H1 & H2 & _).
  now exists ids.
Qed.

(** X10. With [SimpleTokenizerV2], decoding and encoding again changes
    nothing more: the text [decode (encode text)] is encoded to the same
    IDs as [text], hence decoded to itself. *)
Theorem encode_decode_encode_stable (raw_text text : string) :
  exists ids text',
    SimpleTokenizerV2.encode (init (vocab_v2 raw_text)) text = Ok ids /\
    SimpleTokenizerV2.decode (init (vocab_v2 raw_text)) ids = Ok text' /\
    SimpleTokenizerV2.encode (init (vocab_v2 raw_text)) text' = Ok ids.
Proof.
  destruct (encode_decode_encode_v2 raw_text text) as (ids & H1 & H2 & H3).
  exists ids. eexists. split; [exact H1|]. split; [exact H2 | exact H3].
Qed.

(** ** The two tokenizers side by side *)

(** X11. On a text whose symbols all occur in the corpus, none of them the
    literal text of a special token, the two tokenizers built from that
    corpus encode alike: both succeed, with the same IDs. *)
Theorem encode_v1_v2_agree (raw_text text : string) :
  Forall (fun s => In s (preprocess raw_text) /\ s <> endoftext /\ s <> unk)
         (preprocess text) ->
  exists ids,
    SimpleTokenizerV1.encode (init (vocab_v1 raw_text)) text = Ok ids /\
    SimpleTokenizerV2.encode (init (vocab_v2 raw_text)) text = Ok ids.
Proof.
  intros H.
  assert (Hk : Forall
    (fun s => dict_mem String.eqb (vocab_v1 raw_text) s = true)
    (preprocess text)).
  { eapply Forall_impl; [|exact H]. intros s [Hs _].
    apply vocab_mem. now apply all_words_In. }
  destruct (known_ids _ _ Hk) as [ids Hids]. exists ids. split.
  - now apply (encode_v1_known _ (preprocess text)).
  - apply (encode_v2_known _ (preprocess text)); [reflexivity|].
    clear Hk. induction Hids as [|s i strs ids Hs _ IH]; [constructor|].
    inversion H as [|? ? (_ & H1 & H2) Hrest]; subst.
    constructor; [|now apply IH].
    unfold vocab_v2, all_tokens.
    now rewrite all_tokens_from_get_other.
Qed.

Lemma corpus_symbols_check raw_text text :
  forallb (fun s => existsb (String.eqb s) (preprocess raw_text)
                    && negb (s =? endoftext)%string
                    && negb (s =? unk)%string) (preprocess text) = true ->
  Forall (fun s => In s (preprocess raw_text) /\ s <> endoftext /\ s <> unk)
         (preprocess text).
Proof.
  intros H. apply Forall_forall. intros s Hs.
  rewrite forallb_forall in H. specialize (H s Hs).
  apply andb_true_iff in H as [H H2]. apply andb_true_iff in H as [H0 H1].
  apply negb_true_iff in H1, H2. apply String.eqb_neq in H1, H2.
  split; [|now split].
  apply existsb_exists in H0 as [x [Hx E]].
  apply String.eqb_eq in E. now subst.
Qed.

Lemma encode_v1_v2_agree_witness :
  Forall (fun s => In s (preprocess "you like tea, I know")
                   /\ s <> endoftext /\ s <> unk)
         (preprocess "I know, you like tea") /\
  exists ids,
    SimpleTokenizerV1.encode (init (vocab_v1 "you like tea, I know"))
      "I know, you like tea" = Ok ids /\
    SimpleTokenizerV2.encode (init (vocab_v2 "you like tea, I know"))
      "I know, you like tea" = Ok ids.
Proof.
  assert (H : Forall (fun s => In s (preprocess "you like tea, I know")
                               /\ s <> endoftext /\ s <> unk)
                     (preprocess "I know, you like tea")).
  { apply corpus_symbols_check. vm_compute. reflexivity. }
  split; [exact H|].
  exact (encode_v1_v2_agree "you like tea, I know" "I know, you like tea" H).
Defined.

(** X12. The demonstration of the script, for any two texts and any
    corpus: the two texts joined by the end-of-text marker between spaces
    have the symbols of the first, the marker, and the symbols of the
    second; [SimpleTokenizerV2.encode] gives the IDs of the first text, the
    ID of the marker (the number of distinct corpus symbols), and the IDs
    of the second. *)
Theorem encode_joined (raw_text text1 text2 : string) :
  preprocess (joined text1 text2)
    = preprocess text1 ++ endoftext :: preprocess text2 /\
  exists ids1 ids2,
    SimpleTokenizerV2.encode (init (vocab_v2 raw_text)) text1 = Ok ids1 /\
    SimpleTokenizerV2.encode (init (vocab_v2 raw_text)) text2 = Ok ids2 /\
    SimpleTokenizerV2.encode (init (vocab_v2 raw_text)) (joined text1 text2)
      = Ok (ids1 ++ vocab_size raw_text :: ids2).
Proof.
  assert (E : preprocess (joined text1 text2)
              = preprocess text1 ++ endoftext :: preprocess text2).
  { change (joined text1 text2)
      with (text1 ++ String " " (endoftext ++ String " " text2))%string.
    rewrite !preprocess_app_space by reflexivity.
    now rewrite (preprocess_symbol endoftext). }
  split; [exact E|].
  exists (map (id_v2 (vocab_v2 raw_text)) (preprocess text1)),
         (map (id_v2 (vocab_v2 raw_text)) (preprocess text2)).
  rewrite !encode_v2_map by apply vocab_v2_mem_unk.
  split; [reflexivity|]. split; [reflexivity|].
  rewrite E, map_app. cbn [map]. do 3 f_equal.
  unfold id_v2, vocab_size. now rewrite vocab_v2_endoftext.
Qed.

(** ** The two tables of a tokenizer *)

Lemma tables_inverse_of tokens i s :
  dict_get Nat.eqb (int_to_str (init (vocab_of tokens))) i = Some s
  <-> dict_get String.eqb (vocab_of tokens) s = Some i.
Proof.
  split; [apply init_int_to_str_sound, vocab_NoDup_keys|].
  apply init_vocab_of_inverse.
Qed.

Lemma valid_id_bound tokens i :
  dict_mem Nat.eqb (int_to_str (init (vocab_of tokens))) i = true ->
  i < List.length tokens.
Proof.
  unfold dict_mem.
  destruct (dict_get Nat.eqb _ i) as [s|] eqn:E; [|discriminate].
  intros _. apply tables_inverse_of, vocab_get_nth in E.
  apply nth_error_Some. congruence.
Qed.

Lemma valid_id_NoDup tokens i :
  NoDup tokens -> i < List.length tokens ->
  dict_mem Nat.eqb (int_to_str (init (vocab_of tokens))) i = true.
Proof.
  intros Hn Hi. destruct (nth_error tokens i) as [s|] eqn:E.
  - apply (vocab_get_NoDup tokens s i Hn), tables_inverse_of in E.
    unfold dict_mem. now rewrite E.
  - apply nth_error_None in E. lia.
Qed.

Lemma all_tokens_length raw_text :
  List.length (all_tokens raw_text) = vocab_size raw_text + 2.
Proof.
  unfold all_tokens, all_tokens_from, vocab_size, all_words, all_words_from.
  now rewrite length_app.
Qed.

Lemma all_tokens_NoDup raw_text :
  ~ In endoftext (preprocess raw_text) -> ~ In unk (preprocess raw_text) ->
  NoDup (all_tokens raw_text).
Proof.
  intros H1 H2. unfold all_tokens, all_tokens_from.
  apply NoDup_app.
  - apply sorted_NoDup, NoDup_nodup.
  - repeat constructor; cbn; intuition discriminate.
  - intros s Hs Hin. apply (proj1 (sorted_In _ _)) in Hs.
    unfold set_of in Hs. apply (proj1 (nodup_In _ _ _)) in Hs.
    destruct Hin as [<-|[<-|[]]]; contradiction.
Qed.

(** X13. The two tables that [__init__] builds from either vocabulary of
    the script are inverse to each other.  The IDs that [decode] accepts
    with the first vocabulary are exactly those below [vocab_size]; with
    the second they are all below [vocab_size + 2], and exactly those when
    the corpus does not hold the literal text of a special token as a
    symbol. *)
Theorem tables_inverse (raw_text : string) :
  (forall i s,
     dict_get Nat.eqb (int_to_str (init (vocab_v1 raw_text))) i = Some s
     <-> dict_get String.eqb (str_to_int (init (vocab_v1 raw_text))) s = Some i) /\
  (forall i s,
     dict_get Nat.eqb (int_to_str (init (vocab_v2 raw_text))) i = Some s
     <-> dict_get String.eqb (str_to_int (init (vocab_v2 raw_text))) s = Some i) /\
  (forall i,
     dict_mem Nat.eqb (int_to_str (init (vocab_v1 raw_text))) i = true
     <-> i < vocab_size raw_text) /\
  (forall i,
     dict_mem Nat.eqb (int_to_str (init (vocab_v2 raw_text))) i = true ->
     i < vocab_size raw_text + 2) /\
  (~ In endoftext (preprocess raw_text) -> ~ In unk (preprocess raw_text) ->
   forall i, i < vocab_size raw_text + 2 ->
     dict_mem Nat.eqb (int_to_str (init (vocab_v2 raw_text))) i = true).
Proof.
  split; [intros i s; apply tables_inverse_of|].
  split; [intros i s; apply tables_inverse_of|].
  split; [|split].
  - intros i. split; [apply valid_id_bound|].
    apply valid_id_NoDup, all_words_NoDup.
  - intros i H. rewrite <- all_tokens_length. now apply valid_id_bound.
  - intros H1 H2 i Hi. apply valid_id_NoDup.
    + now apply all_tokens_NoDup.
    + now rewrite all_tokens_length.
Qed.

Lemma tables_inverse_witness :
  ~ In endoftext (preprocess "tea, please") /\
  ~ In unk (preprocess "tea, please") /\
  4 < vocab_size "tea, please" + 2 /\
  dict_mem Nat.eqb (int_to_str (init (vocab_v2 "tea, please"))) 4 = true.
Proof.
  assert (H1 : ~ In endoftext (preprocess "tea, please"))
    by (cbn; intuition discriminate).
  assert (H2 : ~ In unk (preprocess "tea, please"))
    by (cbn; intuition discriminate).
  assert (H3 : 4 < vocab_size "tea, please" + 2)
    by (vm_compute; repeat constructor).
  split; [exact H1|]. split; [exact H2|]. split; [exact H3|].
  exact (proj2 (proj2 (proj2 (proj2 (tables_inverse "tea, please"))))
           H1 H2 4 H3).
Defined.

(** ** What the substitution of [decode] leaves *)

Section Substitution.
Variable cls : list ascii.
Hypothesis cls_not_space :
  forall c, in_class cls c = true -> isspace c = false.

Lemma re_sub_starts r :
  starts_with_class cls (re_sub cls r) = true -> before_class cls r = true.
Proof.
  induction r as [|x r IH]; [discriminate|].
  rewrite re_sub_cons. cbn [before_class].
  destruct (isspace x) eqn:Hx.
  - destruct (before_class cls r) eqn:Hb; cbn [andb]; [easy|].
    cbn [starts_with_class]. intros H. apply cls_not_space in H. congruence.
  - cbn [andb starts_with_class]. easy.
Qed.

Lemma re_sub_clean s : space_before_class cls (re_sub cls s) = false.
Proof.
  induction s as [|c s IH]; [reflexivity|]. rewrite re_sub_cons.
  destruct (isspace c && before_class cls s) eqn:E; [exact IH|].
  cbn [space_before_class]. rewrite IH, orb_false_r.
  destruct (isspace c) eqn:Hc; [|reflexivity]. cbn [andb] in *.
  destruct (starts_with_class cls (re_sub cls s)) eqn:Hs; [|reflexivity].
  apply re_sub_starts in Hs. congruence.
Qed.

Lemma space_before_class_cons c r :
  space_before_class cls (String c r)
  = (isspace c && starts_with_class cls r) || space_before_class cls r.
Proof. reflexivity. Qed.

Lemma before_class_space c r :
  isspace c = true -> before_class cls r = true ->
  space_before_class cls (String c r) = true.
Proof.
  revert c. induction r as [|x r IH]; intros c Hc H; [discriminate|].
  cbn [before_class] in H. rewrite space_before_class_cons, Hc.
  cbn [andb starts_with_class]. destruct (isspace x) eqn:Hx.
  - rewrite (IH x Hx H). apply orb_true_r.
  - now rewrite H.
Qed.

Lemma re_sub_fixed s :
  space_before_class cls s = false -> re_sub cls s = s.
Proof.
  induction s as [|c s IH]; [reflexivity|]. intros H.
  assert (Hs : space_before_class cls s = false).
  { cbn [space_before_class] in H. now apply orb_false_iff in H as [_ H]. }
  rewrite re_sub_cons, (IH Hs).
  destruct (isspace c) eqn:Hc; [|reflexivity].
  destruct (before_class cls s) eqn:Hb; [|reflexivity].
  rewrite (before_class_space c s Hc Hb) in H. discriminate.
Qed.

Lemma remove_spaces_re_sub s :
  remove_spaces (re_sub cls s) = remove_spaces s.
Proof.
  induction s as [|c s IH]; [reflexivity|]. rewrite re_sub_cons.
  destruct (isspace c) eqn:Hc; cbn [andb remove_spaces].
  - destruct (before_class cls s); cbn [remove_spaces]; now rewrite ?Hc, IH.
  - now rewrite Hc, IH.
Qed.
End Substitution.

Lemma sub_class_v1_not_space c :
  in_class sub_class_v1 c = true -> isspace c = false.
Proof. intros H. now apply class_not_space, sub_class_v1_split. Qed.

Lemma sub_class_v2_not_space c :
  in_class sub_class_v2 c = true -> isspace c = false.
Proof. intros H. now apply class_not_space, sub_class_v2_split. Qed.

Lemma decode_v1_inv tok ids text :
  SimpleTokenizerV1.decode tok ids = Ok text ->
  exists strs, mapM (lookup_int tok) ids = Ok strs /\
               text = re_sub sub_class_v1 (join " " strs).
Proof.
  unfold SimpleTokenizerV1.decode.
  destruct (mapM (lookup_int tok) ids) as [strs|]; [|discriminate].
  cbn [bind]. intros H. inversion H. now exists strs.
Qed.

Lemma decode_v2_inv tok ids text :
  SimpleTokenizerV2.decode tok ids = Ok text ->
  exists strs, mapM (lookup_int tok) ids = Ok strs /\
               text = re_sub sub_class_v2 (join " " strs).
Proof.
  unfold SimpleTokenizerV2.decode.
  destruct (mapM (lookup_int tok) ids) as [strs|]; [|discriminate].
  cbn [bind]. intros H. inversion H. now exists strs.
Qed.

(** X14. Whatever the tokenizer and the IDs, a text that [decode] returns
    has no whitespace character right in front of a character of the
    decoder's class, the substitution of [decode] applied to it again
    changes nothing, and the substitution has removed nothing but
    whitespace from the joined symbols. *)
Theorem decode_no_space_before_class (tok : tokenizer) (ids : list nat)
    (text : string) :
  (SimpleTokenizerV1.decode tok ids = Ok text ->
   space_before_class sub_class_v1 text = false /\
   re_sub sub_class_v1 text = text /\
   exists strs, mapM (lookup_int tok) ids = Ok strs /\
     remove_spaces text = remove_spaces (join " " strs)) /\
  (SimpleTokenizerV2.decode tok ids = Ok text ->
   space_before_class sub_class_v2 text = false /\
   re_sub sub_class_v2 text = text /\
   exists strs, mapM (lookup_int tok) ids = Ok strs /\
     remove_spaces text = remove_spaces (join " " strs)).
Proof.
  split; intros H.
  - apply decode_v1_inv in H as (strs & E & ->).
    pose proof (re_sub_clean _ sub_class_v1_not_space (join " " strs)) as Hc.
    split; [exact Hc|]. split; [now apply re_sub_fixed|].
    exists strs. split; [exact E | apply remove_spaces_re_sub].
  - apply decode_v2_inv in H as (strs & E & ->).
    pose proof (re_sub_clean _ sub_class_v2_not_space (join " " strs)) as Hc.
    split; [exact Hc|]. split; [now apply re_sub_fixed|].
    exists strs. split; [exact E | apply remove_spaces_re_sub].
Qed.

Lemma decode_no_space_before_class_witness :
  SimpleTokenizerV2.decode (init (vocab_v2 "tea, please")) [2; 0; 1]
    = Ok "tea, please" /\
  space_before_class sub_class_v2 "tea, please" = false /\
  re_sub sub_class_v2 "tea, please" = "tea, please".
Proof.
  assert (H : SimpleTokenizerV2.decode (init (vocab_v2 "tea, please")) [2; 0; 1]
              = Ok "tea, please") by (vm_compute; reflexivity).
  split; [exact H|].
  destruct (proj2 (decode_no_space_before_class
                     (init (vocab_v2 "tea, please")) [2; 0; 1] "tea, please") H)
    as (H1 & H2 & _).
  split; [exact H1 | exact H2].
Defined.

(** ** Sizes and blank texts *)

Lemma remove_spaces_length s :
  String.length (remove_spaces s) <= String.length s.
Proof.
  induction s as [|c s IH]; [reflexivity|]. cbn [remove_spaces].
  destruct (isspace c); cbn [String.length]; lia.
Qed.

Lemma append_length a b :
  String.length (a ++ b) = String.length a + String.length b.
Proof. induction a as [|c a IH]; cbn; congruence. Qed.

Lemma concat_all_length l :
  Forall (fun t => nonempty t = true) l ->
  List.length l <= String.length (concat_all l).
Proof.
  induction 1 as [|t l Ht _ IH]; [reflexivity|].
  cbn [concat_all fold_right List.length]. rewrite append_length.
  fold (concat_all l). destruct t; [discriminate|]. cbn [String.length]. lia.
Qed.

Lemma nodup_length (l : list string) :
  List.length (nodup string_dec l) <= List.length l.
Proof.
  induction l as [|x l IH]; [reflexivity|]. cbn [nodup].
  destruct (in_dec string_dec x l); cbn [List.length]; lia.
Qed.

Lemma preprocess_nonempty_symbols text :
  Forall (fun t => nonempty t = true) (preprocess text).
Proof.
  eapply Forall_impl; [|apply preprocess_symbols]. apply symbolb_nonempty.
Qed.

(** X15. The three numbers the script prints are ordered: the vocabulary
    has at most as many entries as the corpus has symbols, and the corpus
    has at most as many symbols as characters that are not whitespace. *)
Theorem sizes_ordered (raw_text : string) :
  vocab_size raw_text <= List.length (preprocess raw_text) /\
  List.length (preprocess raw_text) <= String.length (remove_spaces raw_text) /\
  String.length (remove_spaces raw_text) <= String.length raw_text.
Proof.
  split; [|split].
  - unfold vocab_size, all_words, all_words_from, set_of.
    rewrite sorted_length. apply nodup_length.
  - rewrite <- preprocess_concat.
    apply concat_all_length, preprocess_nonempty_symbols.
  - apply remove_spaces_length.
Qed.

Lemma preprocess_blank text :
  preprocess text = [] <-> remove_spaces text = EmptyString.
Proof.
  rewrite <- preprocess_concat. split; [now intros ->|].
  apply concat_all_nil, preprocess_nonempty_symbols.
Qed.

(** X16. A text that is empty or all whitespace is encoded to the empty
    list by both classes, whatever the vocabulary, and with the second
    vocabulary of the script it is the only kind of text that is; the empty
    list is decoded to the empty text. *)
Theorem encode_blank (vocab : dict (K := string) (V := nat)) (text : string) :
  (remove_spaces text = EmptyString ->
   SimpleTokenizerV1.encode (init vocab) text = Ok [] /\
   SimpleTokenizerV2.encode (init vocab) text = Ok []) /\
  (forall raw_text,
     SimpleTokenizerV2.encode (init (vocab_v2 raw_text)) text = Ok [] ->
     remove_spaces text = EmptyString) /\
  SimpleTokenizerV1.decode (init vocab) [] = Ok EmptyString /\
  SimpleTokenizerV2.decode (init vocab) [] = Ok EmptyString.
Proof.
  split; [|split; [|split; reflexivity]].
  - intros H. apply preprocess_blank in H.
    unfold SimpleTokenizerV1.encode, SimpleTokenizerV2.encode.
    now rewrite H.
  - intros raw_text H. apply preprocess_blank.
    rewrite encode_v2_map in H by apply vocab_v2_mem_unk.
    inversion H as [E]. now apply map_eq_nil in E.
Qed.

Lemma encode_blank_witness :
  remove_spaces "    " = EmptyString /\
  SimpleTokenizerV1.encode (init (vocab_v2 "the tea")) "    " = Ok [] /\
  SimpleTokenizerV2.encode (init (vocab_v2 "the tea")) "    " = Ok [].
Proof.
  split; [reflexivity|].
  apply (proj1 (encode_blank (vocab_v2 "the tea") "    ")). reflexivity.
Defined.

(** The substitution of the decoders deletes the whitespace in front of an
    apostrophe, not the space the join has put after it. *)
Example apostrophe_run :
  (r <- SimpleTokenizerV1.encode (init (vocab_v1 "It's")) "It's" ;;
   SimpleTokenizerV1.decode (init (vocab_v1 "It's")) r) = Ok "It' s".
Proof. reflexivity. Qed.
